(** * Shader IR lowering passes: copy splitting and subroutine lowering

    A shallow embedding of two Mesa passes,

    - [nir_split_var_copies] (src/mesalib/src/compiler/nir/nir_split_var_copies.c)
    - [lower_subroutine]     (lower_subroutine.cpp, src/unnamed/part_000)

    together with the properties their specification states about them.
    The definitions come first, in the modules [Glsl], [Nir] and [Ir];
    the properties follow them. *)

From Stdlib Require Import List ZArith Bool Arith Lia String.
Import ListNotations.

Set Warnings "-register-all".

(* ================================================================== *)
(** ** Outcomes of fallible code

    The C code guards its invariants with [assert] and, in one place,
    dereferences a pointer that may be null.  Both are modelled as
    outcomes distinct from a normal return, and distinct from the
    exhaustion of the fuel that bounds the recursion of the model. *)

Inductive outcome (A : Type) : Type :=
| Done (a : A)
| AssertFailed
| NullDeref
| OutOfFuel.

Arguments Done {A} a.
Arguments AssertFailed {A}.
Arguments NullDeref {A}.
Arguments OutOfFuel {A}.

Definition bind {A B : Type} (m : outcome A) (k : A -> outcome B) : outcome B :=
  match m with
  | Done a => k a
  | AssertFailed => AssertFailed
  | NullDeref => NullDeref
  | OutOfFuel => OutOfFuel
  end.

Notation "x <- m ;; k" := (bind m (fun x => k))
  (at level 61, m at next level, right associativity).
Notation "' p <- m ;; k" := (bind m (fun p => k))
  (at level 61, p pattern, m at next level, right associativity).

Definition assert (c : bool) : outcome unit :=
  if c then Done tt else AssertFailed.

(** [for (i = lo; i < lo + n; i++) body(i)] with the loop state threaded. *)
Fixpoint for_loop {S : Type} (n lo : nat) (body : nat -> S -> outcome S) (s : S)
  : outcome S :=
  match n with
  | O => Done s
  | Datatypes.S n' => s' <- body lo s ;; for_loop n' (Datatypes.S lo) body s'
  end.

(* ================================================================== *)
(** ** GLSL types *)

Module Glsl.

Inductive glsl_base_type : Type :=
| GLSL_TYPE_UINT
| GLSL_TYPE_INT
| GLSL_TYPE_FLOAT
| GLSL_TYPE_DOUBLE
| GLSL_TYPE_BOOL.

(** Modelled from the spec: the declaration of [glsl_type] (glsl_types.h)
    is not among the sources.  The spec's data model gives a closed tree
    over five kinds: scalar and vector leaves, matrices, arrays of an
    element type with a length, and structs with ordered fields.  Fields
    are addressed by index in both passes, so their names are left out. *)
Inductive glsl_type : Type :=
| Scalar (base : glsl_base_type)
| Vector (base : glsl_base_type) (components : nat)
| Matrix (base : glsl_base_type) (columns rows : nat)
| Array (element : glsl_type) (length : nat)
| Struct (fields : list glsl_type).

Definition glsl_base_type_eqb (a b : glsl_base_type) : bool :=
  match a, b with
  | GLSL_TYPE_UINT, GLSL_TYPE_UINT
  | GLSL_TYPE_INT, GLSL_TYPE_INT
  | GLSL_TYPE_FLOAT, GLSL_TYPE_FLOAT
  | GLSL_TYPE_DOUBLE, GLSL_TYPE_DOUBLE
  | GLSL_TYPE_BOOL, GLSL_TYPE_BOOL => true
  | _, _ => false
  end.

(** Types are interned in the compiler, so the pointer comparison
    [a == b] of the sources is structural equality. *)
Fixpoint glsl_type_eqb (a b : glsl_type) {struct a} : bool :=
  match a, b with
  | Scalar x, Scalar y => glsl_base_type_eqb x y
  | Vector x n, Vector y m => glsl_base_type_eqb x y && Nat.eqb n m
  | Matrix x c r, Matrix y c' r' =>
      glsl_base_type_eqb x y && Nat.eqb c c' && Nat.eqb r r'
  | Array e n, Array e' n' => glsl_type_eqb e e' && Nat.eqb n n'
  | Struct fs, Struct gs =>
      (fix fields_eqb (fs gs : list glsl_type) {struct fs} : bool :=
         match fs, gs with
         | [], [] => true
         | f :: fs', g :: gs' => glsl_type_eqb f g && fields_eqb fs' gs'
         | _, _ => false
         end) fs gs
  | _, _ => false
  end.

(** Modelled from the spec: the queries on [glsl_type] (glsl_types.h,
    nir_types.h) are not among the sources; each reads the kind of the
    type, a leaf being a scalar or a vector. *)
Definition glsl_type_is_vector_or_scalar (t : glsl_type) : bool :=
  match t with
  | Scalar _ | Vector _ _ => true
  | _ => false
  end.

Definition glsl_type_is_struct (t : glsl_type) : bool :=
  match t with Struct _ => true | _ => false end.

Definition glsl_type_is_matrix (t : glsl_type) : bool :=
  match t with Matrix _ _ _ => true | _ => false end.

Definition glsl_type_is_array (t : glsl_type) : bool :=
  match t with Array _ _ => true | _ => false end.

(** Modelled from the spec: [glsl_get_length] (not among the sources) is
    the number of fields of a struct, of elements of an array, of columns
    of a matrix; 0 for the leaves. *)
Definition glsl_get_length (t : glsl_type) : nat :=
  match t with
  | Struct fs => List.length fs
  | Array _ n => n
  | Matrix _ c _ => c
  | _ => 0
  end.

(** Modelled from the spec: [glsl_get_struct_field] (not among the
    sources) is the declared type of the field at an index. *)
Definition glsl_get_struct_field (t : glsl_type) (i : nat) : option glsl_type :=
  match t with
  | Struct fs => nth_error fs i
  | _ => None
  end.

(** Modelled from the spec: [glsl_get_array_element] (not among the
    sources) is the element type of an array, the column type of a
    matrix. *)
Definition glsl_get_array_element (t : glsl_type) : option glsl_type :=
  match t with
  | Array e _ => Some e
  | Matrix b _ r => Some (Vector b r)
  | _ => None
  end.

(** Modelled from the spec: [glsl_type::without_array] (not among the
    sources) strips every enclosing array. *)
Fixpoint without_array (t : glsl_type) : glsl_type :=
  match t with
  | Array e _ => without_array e
  | _ => t
  end.

(** Nesting height: the number of struct, array and matrix levels above
    the deepest leaf. *)
Fixpoint height (t : glsl_type) : nat :=
  match t with
  | Scalar _ | Vector _ _ => 0
  | Matrix _ _ _ => 1
  | Array e _ => S (height e)
  | Struct fs =>
      S ((fix fields_height (fs : list glsl_type) : nat :=
            match fs with
            | [] => 0
            | f :: fs' => Nat.max (height f) (fields_height fs')
            end) fs)
  end.

Definition fields_height (fs : list glsl_type) : nat :=
  fold_right (fun f acc => Nat.max (height f) acc) 0 fs.

(** Induction principle that reaches the fields of a struct. *)
Section glsl_type_induction.
Variable P : glsl_type -> Prop.
Hypothesis HScalar : forall b, P (Scalar b).
Hypothesis HVector : forall b n, P (Vector b n).
Hypothesis HMatrix : forall b c r, P (Matrix b c r).
Hypothesis HArray : forall e n, P e -> P (Array e n).
Hypothesis HStruct : forall fs, Forall P fs -> P (Struct fs).

Fixpoint glsl_type_nested_ind (t : glsl_type) : P t :=
  match t with
  | Scalar b => HScalar b
  | Vector b n => HVector b n
  | Matrix b c r => HMatrix b c r
  | Array e n => HArray e n (glsl_type_nested_ind e)
  | Struct fs =>
      HStruct fs
        ((fix all (fs : list glsl_type) : Forall P fs :=
            match fs with
            | [] => Forall_nil P
            | f :: fs' =>
                @Forall_cons _ P f fs' (glsl_type_nested_ind f) (all fs')
            end) fs)
  end.
End glsl_type_induction.

End Glsl.

(* ================================================================== *)
(** ** NIR: instructions, builder and the copy-splitting pass
    (nir_split_var_copies.c) *)

Module Nir.
Import Glsl.

Record nir_variable : Type := { var_name : string; var_type : glsl_type }.

(** An SSA value used as an operand, by its number. *)
Definition nir_src : Type := nat.

(** A dereference chain: each link points to its parent and caches the
    type it resolves to, as [nir_deref_instr] does in its [type] field. *)
Inductive nir_deref_instr : Type :=
| nir_deref_type_var (var : nir_variable)
| nir_deref_type_struct (parent : nir_deref_instr) (index : nat) (ty : glsl_type)
| nir_deref_type_array (parent : nir_deref_instr) (index : nir_src) (ty : glsl_type)
| nir_deref_type_array_wildcard (parent : nir_deref_instr) (ty : glsl_type).

(** The [type] field of a deref. *)
Definition type (d : nir_deref_instr) : glsl_type :=
  match d with
  | nir_deref_type_var v => var_type v
  | nir_deref_type_struct _ _ t => t
  | nir_deref_type_array _ _ t => t
  | nir_deref_type_array_wildcard _ t => t
  end.

Inductive nir_intrinsic_instr : Type :=
| nir_intrinsic_copy_deref (dst src : nir_deref_instr)  (* src[0], src[1] *)
| nir_intrinsic_load_deref (dest : nir_src) (d : nir_deref_instr)
| nir_intrinsic_store_deref (d : nir_deref_instr) (value : nir_src)
| nir_intrinsic_other (op : nat).

Inductive nir_instr : Type :=
| nir_instr_type_alu (dest : nir_src) (op : nat)
| nir_instr_type_deref (d : nir_deref_instr)
| nir_instr_type_intrinsic (i : nir_intrinsic_instr)
| nir_instr_type_load_const (dest : nir_src) (value : Z).

(** The builder, reduced to its cursor: a position in the instruction
    list of one block, with the instructions before it and after it. *)
Record nir_builder : Type :=
  { before_cursor : list nir_instr; after_cursor : list nir_instr }.

(** Splice an instruction at the cursor and advance the cursor past it. *)
Definition nir_builder_instr_insert (b : nir_builder) (i : nir_instr) : nir_builder :=
  {| before_cursor := before_cursor b ++ [i]; after_cursor := after_cursor b |}.

Definition nir_copy_deref (b : nir_builder) (dst src : nir_deref_instr) : nir_builder :=
  nir_builder_instr_insert b
    (nir_instr_type_intrinsic (nir_intrinsic_copy_deref dst src)).

(** Modelled from the spec: [nir_build_deref_struct] (nir_builder.h, not
    among the sources) builds the [Field(index)] step under [parent],
    typed with the declared type of that field, and emits it at the
    cursor.  A parent that is no struct, or has no such field, is an
    invariant violation. *)
Definition nir_build_deref_struct (b : nir_builder) (parent : nir_deref_instr)
    (index : nat) : outcome (nir_builder * nir_deref_instr) :=
  match glsl_get_struct_field (type parent) index with
  | Some t =>
      let d := nir_deref_type_struct parent index t in
      Done (nir_builder_instr_insert b (nir_instr_type_deref d), d)
  | None => AssertFailed
  end.

(** Modelled from the spec: [nir_build_deref_array_wildcard] (nir_builder.h,
    not among the sources) builds the [ArrayWildcard] step under [parent],
    typed with the element type of the array (the column type of a
    matrix), and emits it at the cursor. *)
Definition nir_build_deref_array_wildcard (b : nir_builder)
    (parent : nir_deref_instr) : outcome (nir_builder * nir_deref_instr) :=
  match glsl_get_array_element (type parent) with
  | Some t =>
      let d := nir_deref_type_array_wildcard parent t in
      Done (nir_builder_instr_insert b (nir_instr_type_deref d), d)
  | None => AssertFailed
  end.

(** [split_deref_copy_instr], with the depth of its recursion bounded by
    [fuel].  The two derefs of a recursive call are built destination
    first. *)
Fixpoint split_deref_copy_instr_fuel (fuel : nat) (b : nir_builder)
    (dst src : nir_deref_instr) {struct fuel} : outcome nir_builder :=
  match fuel with
  | O => OutOfFuel
  | S fuel' =>
      _ <- assert (glsl_type_eqb (type dst) (type src)) ;;
      if glsl_type_is_vector_or_scalar (type src) then
        Done (nir_copy_deref b dst src)
      else if glsl_type_is_struct (type src) then
        for_loop (glsl_get_length (type src)) 0
          (fun i b =>
             '(b1, d) <- nir_build_deref_struct b dst i ;;
             '(b2, s) <- nir_build_deref_struct b1 src i ;;
             split_deref_copy_instr_fuel fuel' b2 d s)
          b
      else
        _ <- assert (glsl_type_is_matrix (type src)
                     || glsl_type_is_array (type src)) ;;
        '(b1, d) <- nir_build_deref_array_wildcard b dst ;;
        '(b2, s) <- nir_build_deref_array_wildcard b1 src ;;
        split_deref_copy_instr_fuel fuel' b2 d s
  end.

(** One call per nesting level of the type, and one for the leaf. *)
Definition split_deref_copy_instr (b : nir_builder) (dst src : nir_deref_instr)
  : outcome nir_builder :=
  split_deref_copy_instr_fuel (S (height (type src))) b dst src.

(** *** Metadata flags *)

Definition nir_metadata_block_index : Z := 1.
Definition nir_metadata_dominance : Z := 2.
Definition nir_metadata_live_ssa_defs : Z := 4.
Definition nir_metadata_not_properly_reset : Z := 8.

Definition nir_block : Type := list nir_instr.

Record nir_function_impl : Type :=
  { body : list nir_block;      (* the blocks, in program order *)
    valid_metadata : Z }.

(** Modelled from the spec: [nir_metadata_preserve] (nir_metadata.c, not
    among the sources) is the tracker's [preserve(set)]: the analyses of
    the set keep their validity, every other flag is cleared. *)
Definition nir_metadata_preserve (impl : nir_function_impl) (preserved : Z)
  : nir_function_impl :=
  {| body := body impl;
     valid_metadata := Z.land (valid_metadata impl) preserved |}.



(** The body of [nir_foreach_instr_safe] in [split_var_copies_impl]:
    [done] holds the instructions already behind the iterator, [todo]
    those still ahead.  Removing the copy leaves the cursor where it
    was, between the two; the iterator has saved [next] beforehand and
    goes on from there, past whatever was emitted at the cursor. *)
Fixpoint split_var_copies_block (done todo : list nir_instr) (progress : bool)
  : outcome (nir_block * bool) :=
  match todo with
  | [] => Done (done, progress)
  | instr :: next =>
      match instr with
      | nir_instr_type_intrinsic (nir_intrinsic_copy_deref dst src) =>
          let b := {| before_cursor := done; after_cursor := next |} in
          b' <- split_deref_copy_instr b dst src ;;
          split_var_copies_block (before_cursor b') next true
      | _ => split_var_copies_block (done ++ [instr]) next progress
      end
  end.

(** [split_var_copies_impl].  [NDEBUG] is the build configuration: the
    else branch is compiled only when it is off. *)
Fixpoint split_var_copies_blocks (blocks : list nir_block) (progress : bool)
  : outcome (list nir_block * bool) :=
  match blocks with
  | [] => Done ([], progress)
  | block :: rest =>
      '(block', progress1) <- split_var_copies_block [] block progress ;;
      '(rest', progress2) <- split_var_copies_blocks rest progress1 ;;
      Done (block' :: rest', progress2)
  end.

Definition split_var_copies_impl (NDEBUG : bool) (impl : nir_function_impl)
  : outcome (nir_function_impl * bool) :=
  '(blocks, progress) <- split_var_copies_blocks (body impl) false ;;
  let impl1 := {| body := blocks; valid_metadata := valid_metadata impl |} in
  let impl2 :=
    if progress then
      nir_metadata_preserve impl1
        (Z.lor nir_metadata_block_index nir_metadata_dominance)
    else if NDEBUG then impl1
    else {| body := blocks;
            valid_metadata :=
              Z.land (valid_metadata impl1)
                     (Z.lnot nir_metadata_not_properly_reset) |} in
  Done (impl2, progress).

Record nir_function : Type :=
  { name : string; impl : option nir_function_impl }.

Definition nir_shader : Type := list nir_function.

(** [nir_split_var_copies]: the loop over the functions of the shader. *)
Fixpoint split_var_copies_functions (NDEBUG : bool) (fs : list nir_function)
    (progress : bool) : outcome (list nir_function * bool) :=
  match fs with
  | [] => Done ([], progress)
  | function :: rest =>
      '(function', progress1) <-
        match impl function with
        | Some i =>
            '(i', p) <- split_var_copies_impl NDEBUG i ;;
            Done ({| name := name function; impl := Some i' |}, p || progress)
        | None => Done (function, progress)
        end ;;
      '(rest', progress2) <- split_var_copies_functions NDEBUG rest progress1 ;;
      Done (function' :: rest', progress2)
  end.

Definition nir_split_var_copies (NDEBUG : bool) (shader : nir_shader)
  : outcome (nir_shader * bool) :=
  split_var_copies_functions NDEBUG shader false.

(** *** Reading the result *)

Definition is_copy (i : nir_instr) : bool :=
  match i with
  | nir_instr_type_intrinsic (nir_intrinsic_copy_deref _ _) => true
  | _ => false
  end.

(** The copies of an instruction list, as (dst, src) pairs, in order. *)
Fixpoint copies_of (l : list nir_instr) : list (nir_deref_instr * nir_deref_instr) :=
  match l with
  | [] => []
  | nir_instr_type_intrinsic (nir_intrinsic_copy_deref d s) :: l' =>
      (d, s) :: copies_of l'
  | _ :: l' => copies_of l'
  end.

Definition impl_instrs (i : nir_function_impl) : list nir_instr :=
  List.concat (body i).

Definition shader_instrs (sh : nir_shader) : list nir_instr :=
  flat_map (fun f => match impl f with
                     | Some i => impl_instrs i
                     | None => []
                     end) sh.

(** The last step of a chain is an [ArrayWildcard]. *)
Definition ends_in_wildcard (d : nir_deref_instr) : bool :=
  match d with
  | nir_deref_type_array_wildcard _ _ => true
  | _ => false
  end.

(** The resolved type of a chain: its steps folded over the type of the
    root variable. *)
Fixpoint resolve (d : nir_deref_instr) : option glsl_type :=
  match d with
  | nir_deref_type_var v => Some (var_type v)
  | nir_deref_type_struct p i _ =>
      match resolve p with
      | Some t => glsl_get_struct_field t i
      | None => None
      end
  | nir_deref_type_array p _ _ | nir_deref_type_array_wildcard p _ =>
      match resolve p with
      | Some t => glsl_get_array_element t
      | None => None
      end
  end.

(** Every copy of the list is between chains of one type. *)
Definition copies_typed (l : list nir_instr) : Prop :=
  Forall (fun c => type (fst c) = type (snd c)) (copies_of l).

(** The emission the spec describes, by recursion on the shared type:
    one copy at a leaf, the fields of a struct in declaration order, one
    wildcard step for an array or a matrix. *)
Fixpoint split_emission (t : glsl_type) (dst src : nir_deref_instr) {struct t}
  : list nir_instr :=
  match t with
  | Scalar _ | Vector _ _ =>
      [nir_instr_type_intrinsic (nir_intrinsic_copy_deref dst src)]
  | Matrix base _ rows =>
      let d := nir_deref_type_array_wildcard dst (Vector base rows) in
      let s := nir_deref_type_array_wildcard src (Vector base rows) in
      [nir_instr_type_deref d; nir_instr_type_deref s;
       nir_instr_type_intrinsic (nir_intrinsic_copy_deref d s)]
  | Array e _ =>
      let d := nir_deref_type_array_wildcard dst e in
      let s := nir_deref_type_array_wildcard src e in
      nir_instr_type_deref d :: nir_instr_type_deref s :: split_emission e d s
  | Struct fs =>
      (fix fields (fs : list glsl_type) (i : nat) {struct fs} : list nir_instr :=
         match fs with
         | [] => []
         | f :: fs' =>
             let d := nir_deref_type_struct dst i f in
             let s := nir_deref_type_struct src i f in
             nir_instr_type_deref d :: nir_instr_type_deref s
               :: split_emission f d s ++ fields fs' (S i)
         end) fs 0
  end.

Definition fields_emission (dst src : nir_deref_instr) :=
  fix fields (fs : list glsl_type) (i : nat) {struct fs} : list nir_instr :=
    match fs with
    | [] => []
    | f :: fs' =>
        let d := nir_deref_type_struct dst i f in
        let s := nir_deref_type_struct src i f in
        nir_instr_type_deref d :: nir_instr_type_deref s
          :: split_emission f d s ++ fields fs' (S i)
    end.

(** The builder after [l] has been emitted at its cursor. *)
Definition emit (b : nir_builder) (l : list nir_instr) : nir_builder :=
  {| before_cursor := before_cursor b ++ l; after_cursor := after_cursor b |}.

(** What one instruction of the original list becomes. *)
Definition expand (i : nir_instr) : list nir_instr :=
  match i with
  | nir_instr_type_intrinsic (nir_intrinsic_copy_deref dst src) =>
      split_emission (type src) dst src
  | _ => [i]
  end.

(** Leaves of the type tree, an array counting as its element. *)
Fixpoint leaf_count (t : glsl_type) : nat :=
  match t with
  | Scalar _ | Vector _ _ | Matrix _ _ _ => 1
  | Array e _ => leaf_count e
  | Struct fs =>
      (fix fields (fs : list glsl_type) : nat :=
         match fs with
         | [] => 0
         | f :: fs' => leaf_count f + fields fs'
         end) fs
  end.

Definition leaf_copy (c : nir_deref_instr * nir_deref_instr) : Prop :=
  glsl_type_is_vector_or_scalar (type (fst c)) = true
  /\ glsl_type_is_vector_or_scalar (type (snd c)) = true.

Definition has_copy (l : list nir_instr) : bool := existsb is_copy l.


(** The claim of the refinement, for one type. *)
Definition refines (t : glsl_type) : Prop :=
  forall fuel b dst src,
    type src = t -> type dst = t -> height t < fuel ->
    split_deref_copy_instr_fuel fuel b dst src
    = Done (emit b (split_emission t dst src)).

(** A chain as the pass leaves it: of a leaf type, or ending in a
    wildcard step. *)
Definition split_chain (d : nir_deref_instr) : Prop :=
  glsl_type_is_vector_or_scalar (type d) = true \/ ends_in_wildcard d = true.

Definition impl_typed (i : nir_function_impl) : Prop :=
  Forall copies_typed (body i).

Definition function_typed (f : nir_function) : Prop :=
  match impl f with
  | Some i => impl_typed i
  | None => True
  end.

Definition shader_typed (sh : nir_shader) : Prop := Forall function_typed sh.

Definition impl_has_copy (i : nir_function_impl) : bool :=
  existsb has_copy (body i).

(** The function body the pass leaves behind. *)
Definition impl_after (NDEBUG : bool) (i : nir_function_impl) : nir_function_impl :=
  {| body := map (flat_map expand) (body i);
     valid_metadata :=
       if impl_has_copy i then
         Z.land (valid_metadata i)
                (Z.lor nir_metadata_block_index nir_metadata_dominance)
       else if NDEBUG then valid_metadata i
       else Z.land (valid_metadata i) (Z.lnot nir_metadata_not_properly_reset) |}.

Definition function_after (NDEBUG : bool) (f : nir_function) : nir_function :=
  match impl f with
  | Some i => {| name := name f; impl := Some (impl_after NDEBUG i) |}
  | None => f
  end.

Definition function_has_copy (f : nir_function) : bool :=
  match impl f with
  | Some i => impl_has_copy i
  | None => false
  end.

(** An instruction the split may emit: a field step, a wildcard step or
    a copy; never a step at a concrete array index. *)
Definition emitted_step (i : nir_instr) : bool :=
  match i with
  | nir_instr_type_deref (nir_deref_type_struct _ _ _) => true
  | nir_instr_type_deref (nir_deref_type_array_wildcard _ _) => true
  | nir_instr_type_intrinsic (nir_intrinsic_copy_deref _ _) => true
  | _ => false
  end.

(** A chain is well formed when the type cached in it is the one its
    steps resolve to. *)
Definition chain_wf (d : nir_deref_instr) : Prop := resolve d = Some (type d).

Definition copy_wf (c : nir_deref_instr * nir_deref_instr) : Prop :=
  chain_wf (fst c) /\ chain_wf (snd c).

Definition copies_wf (l : list nir_instr) : Prop := Forall copy_wf (copies_of l).

Definition impl_wf (i : nir_function_impl) : Prop := Forall copies_wf (body i).

(** The steps of the chain resolve to a vector or scalar type. *)
Definition resolves_to_leaf (d : nir_deref_instr) : Prop :=
  exists t, resolve d = Some t /\ glsl_type_is_vector_or_scalar t = true.

(** The leaves of the types copied by the copies of a list, an array
    counting as its element. *)
Definition leaves_copied (l : list nir_instr) : nat :=
  list_sum (map (fun c => leaf_count (type (snd c))) (copies_of l)).

(** *** Sample programs *)

Definition vec3 : glsl_type := Vector GLSL_TYPE_FLOAT 3.
Definition float : glsl_type := Scalar GLSL_TYPE_FLOAT.
(** [struct { vec3 a; float b[4]; }] *)
Definition sample_struct : glsl_type := Struct [vec3; Array float 4].

Definition var_dst : nir_variable :=
  {| var_name := "dst"; var_type := sample_struct |}.
Definition var_src : nir_variable :=
  {| var_name := "src"; var_type := sample_struct |}.
Definition sample_dst : nir_deref_instr := nir_deref_type_var var_dst.
Definition sample_src : nir_deref_instr := nir_deref_type_var var_src.

Definition dst_a := nir_deref_type_struct sample_dst 0 vec3.
Definition src_a := nir_deref_type_struct sample_src 0 vec3.
Definition dst_b := nir_deref_type_struct sample_dst 1 (Array float 4).
Definition src_b := nir_deref_type_struct sample_src 1 (Array float 4).
Definition dst_b_all := nir_deref_type_array_wildcard dst_b float.
Definition src_b_all := nir_deref_type_array_wildcard src_b float.

Definition empty_builder : nir_builder :=
  {| before_cursor := []; after_cursor := [] |}.

Definition copy_instr (d s : nir_deref_instr) : nir_instr :=
  nir_instr_type_intrinsic (nir_intrinsic_copy_deref d s).

Definition var_x : nir_variable := {| var_name := "x"; var_type := float |}.
Definition var_y : nir_variable := {| var_name := "y"; var_type := float |}.

(** A shader of one function whose one block copies a float to a float. *)
Definition scalar_copy_shader : nir_shader :=
  [ {| name := "main";
       impl := Some {| body := [[copy_instr (nir_deref_type_var var_x)
                                            (nir_deref_type_var var_y)]];
                       valid_metadata := 3 |} |} ].

(** A shader of one function that copies the sample struct. *)
Definition struct_copy_impl : nir_function_impl :=
  {| body := [[nir_instr_type_deref sample_dst;
               nir_instr_type_deref sample_src;
               copy_instr sample_dst sample_src;
               nir_instr_type_load_const 7 1]];
     valid_metadata := 11 |}.

Definition struct_copy_shader : nir_shader :=
  [ {| name := "main"; impl := Some struct_copy_impl |} ].

(** A function body without any copy, every flag set. *)
Definition no_copy_impl : nir_function_impl :=
  {| body := [[nir_instr_type_load_const 0 5; nir_instr_type_alu 1 0]];
     valid_metadata := 11 |}.

End Nir.

(* ================================================================== *)
(** ** GLSL IR and the subroutine-lowering pass (lower_subroutine.cpp) *)

Module Ir.
Import Glsl.

Record ir_variable : Type := { var_name : string; var_type : glsl_type }.

(** Identity of an object allocated out of a ralloc context.  The
    context is modelled by the next address it hands out. *)
Definition address : Type := nat.
Definition mem_ctx : Type := address.

Definition ralloc (mem : mem_ctx) : address * mem_ctx := (mem, S mem).

(** A reference to a variable is an object of its own: two references
    to one variable are told apart by their addresses. *)
Record ir_dereference_variable : Type :=
  { addr : address; var : ir_variable }.

Inductive ir_expression_operation : Type :=
| ir_unop_subroutine_to_int
| ir_binop_equal
| ir_op_other (code : nat).

Inductive ir_rvalue : Type :=
| ir_constant (ty : glsl_type) (value : Z)
| ir_deref_variable (d : ir_dereference_variable)
| ir_dereference_array (ty : glsl_type) (array : ir_dereference_variable)
                       (array_index : ir_rvalue)
| ir_expression1 (ty : glsl_type) (op : ir_expression_operation) (a : ir_rvalue)
| ir_expression2 (ty : glsl_type) (op : ir_expression_operation) (a b : ir_rvalue).

(** The [type] field of an rvalue. *)
Definition rvalue_type (r : ir_rvalue) : glsl_type :=
  match r with
  | ir_constant t _ => t
  | ir_deref_variable d => var_type (var d)
  | ir_dereference_array t _ _ => t
  | ir_expression1 t _ _ => t
  | ir_expression2 t _ _ _ => t
  end.

Record ir_function_signature : Type :=
  { function_name : string;
    return_type : option glsl_type;      (* [None] is void *)
    parameters : list glsl_type }.

(** A function; [subroutine_types] holds the [num_subroutine_types]
    interface types it is declared to implement. *)
Record ir_function : Type :=
  { name : string;
    signatures : list ir_function_signature;
    subroutine_types : list glsl_type }.

Definition num_subroutine_types (fn : ir_function) : nat :=
  List.length (subroutine_types fn).

(** The part of [_mesa_glsl_parse_state] the pass reads: the registry of
    the [num_subroutines] subroutine implementations. *)
Record _mesa_glsl_parse_state : Type :=
  { subroutines : list ir_function }.

Definition num_subroutines (state : _mesa_glsl_parse_state) : nat :=
  List.length (subroutines state).

Record ir_call : Type :=
  { callee : option ir_function_signature;      (* [None] is a null pointer *)
    return_deref : option ir_dereference_variable;
    actual_parameters : list ir_rvalue;
    sub_var : option ir_variable;
    array_idx : option ir_rvalue }.

Inductive ir_instruction : Type :=
| ir_type_call (c : ir_call)
| ir_type_if (condition : ir_rvalue)
             (then_instructions else_instructions : list ir_instruction)
| ir_type_assignment (lhs rhs : ir_rvalue)
| ir_type_loop (body_instructions : list ir_instruction)
| ir_type_function (fn : string) (body : list ir_instruction).

(** *** Constructors of ir.h and ir_builder.h

    The node constructors, [clone], [exact_matching_signature] and the
    builders [equal], [subr_to_int] and [if_tree] are declared in
    headers that are not among the sources.  Each allocates out of the
    context it is given. *)

Fixpoint list_eqb {A : Type} (eqb : A -> A -> bool) (l l' : list A) : bool :=
  match l, l' with
  | [], [] => true
  | x :: l, y :: l' => eqb x y && list_eqb eqb l l'
  | _, _ => false
  end.

(** Modelled from the spec: [ir_function::exact_matching_signature] is
    the signature whose parameter types exactly match the types of the
    actual arguments, null when there is none. *)
Definition exact_matching_signature (fn : ir_function)
    (actual_parameters : list ir_rvalue) : option ir_function_signature :=
  find (fun sig =>
          list_eqb glsl_type_eqb (parameters sig)
                   (map rvalue_type actual_parameters))
       (signatures fn).

(** Modelled from the spec: [ir_constant(int)] (ir.h, not among the
    sources), the integer constant a rung compares with. *)
Definition new_ir_constant (mem : mem_ctx) (s : nat) : ir_rvalue * mem_ctx :=
  (ir_constant (Scalar GLSL_TYPE_INT) (Z.of_nat s), snd (ralloc mem)).

(** Modelled from the spec: [ir_dereference_variable(var)] (ir.h, not
    among the sources), a new reference to a variable. *)
Definition new_ir_dereference_variable (mem : mem_ctx) (v : ir_variable)
  : ir_dereference_variable * mem_ctx :=
  let (a, mem') := ralloc mem in ({| addr := a; var := v |}, mem').

(** Modelled from the spec: [ir_dereference_variable::clone] (not among
    the sources) is the independent copy of a destination: a new
    reference to the same variable. *)
Definition clone_dereference_variable (mem : mem_ctx)
    (d : ir_dereference_variable) : ir_dereference_variable * mem_ctx :=
  new_ir_dereference_variable mem (var d).

(** Modelled from the spec: [ir_rvalue::clone] (not among the sources)
    is a deep copy, every node allocated anew. *)
Fixpoint clone (mem : mem_ctx) (r : ir_rvalue) : ir_rvalue * mem_ctx :=
  match r with
  | ir_constant t v => (ir_constant t v, snd (ralloc mem))
  | ir_deref_variable d =>
      let (d', mem1) := clone_dereference_variable mem d in
      (ir_deref_variable d', mem1)
  | ir_dereference_array t a i =>
      let (a', mem1) := clone_dereference_variable mem a in
      let (i', mem2) := clone mem1 i in
      (ir_dereference_array t a' i', snd (ralloc mem2))
  | ir_expression1 t op a =>
      let (a', mem1) := clone mem a in
      (ir_expression1 t op a', snd (ralloc mem1))
  | ir_expression2 t op a b =>
      let (a', mem1) := clone mem a in
      let (b', mem2) := clone mem1 b in
      (ir_expression2 t op a' b', snd (ralloc mem2))
  end.

(** Modelled from the spec: [ir_dereference_array] built from a variable
    and an index (ir.h, not among the sources): the variable is wrapped
    in a reference of its own; the node has the element type. *)
Definition new_ir_dereference_array (mem : mem_ctx) (v : ir_variable)
    (array_index : ir_rvalue) : ir_rvalue * mem_ctx :=
  let (d, mem1) := new_ir_dereference_variable mem v in
  let t := match glsl_get_array_element (var_type v) with
           | Some e => e
           | None => var_type v
           end in
  (ir_dereference_array t d array_index, snd (ralloc mem1)).

(** Modelled from the spec: the constructor
    [ir_call(callee, return_deref, actual_parameters)] (ir.h, not among
    the sources) builds [Call(callee, args, return_dest)], a direct
    call. *)
Definition new_ir_call (mem : mem_ctx) (callee : option ir_function_signature)
    (return_deref : option ir_dereference_variable)
    (actual_parameters : list ir_rvalue) : ir_call * mem_ctx :=
  ({| callee := callee; return_deref := return_deref;
      actual_parameters := actual_parameters;
      sub_var := None; array_idx := None |}, snd (ralloc mem)).

(** Modelled from the spec: [subr_to_int] (ir_builder.h, not among the
    sources) reads the integer held in a subroutine variable. *)
Definition subr_to_int (mem : mem_ctx) (a : ir_rvalue) : ir_rvalue * mem_ctx :=
  (ir_expression1 (Scalar GLSL_TYPE_INT) ir_unop_subroutine_to_int a,
   snd (ralloc mem)).

(** Modelled from the spec: [equal] (ir_builder.h, not among the
    sources) is the comparison [a == b]. *)
Definition equal (mem : mem_ctx) (a b : ir_rvalue) : ir_rvalue * mem_ctx :=
  (ir_expression2 (Scalar GLSL_TYPE_BOOL) ir_binop_equal a b, snd (ralloc mem)).

(** Modelled from the spec: [if_tree(condition, then_branch)] and
    [if_tree(condition, then_branch, else_branch)] (ir_builder.h, not
    among the sources) build [Conditional(cond, then, else)], the else
    branch empty in the first form. *)
Definition if_tree (mem : mem_ctx) (condition : ir_rvalue)
    (then_branch : ir_instruction) (else_branch : option ir_instruction)
  : ir_instruction * mem_ctx :=
  (ir_type_if condition [then_branch]
     match else_branch with
     | Some e => [e]
     | None => []
     end,
   snd (ralloc mem)).

(** *** The visitor *)

Record lower_subroutine_visitor : Type :=
  { progress : bool; state : _mesa_glsl_parse_state }.

(** The locals of [visit_leave] that live across the iterations of its
    loop, and the allocation context. *)
Record ladder_state : Type :=
  { mem : mem_ctx;
    last_branch : option ir_instruction;
    cur_return_deref : option ir_dereference_variable }.

(** [is_compat]: the inner loop over [fn->subroutine_types]. *)
Definition is_compat (sv : ir_variable) (fn : ir_function) : bool :=
  existsb (fun t => glsl_type_eqb (without_array (var_type sv)) t)
          (subroutine_types fn).

(** One iteration of the loop of [visit_leave], for registry index [s]. *)
Definition ladder_iteration (state : _mesa_glsl_parse_state) (ir : ir_call)
    (sv : ir_variable) (s : nat) (st : ladder_state) : outcome ladder_state :=
  let (lc, mem1) := new_ir_constant (mem st) s in
  match nth_error (subroutines state) s with
  | None => AssertFailed
  | Some fn =>
      if negb (is_compat sv fn) then
        Done {| mem := mem1; last_branch := last_branch st;
                cur_return_deref := cur_return_deref st |}
      else
        let (var, mem2) :=
          match array_idx ir with
          | Some idx =>
              let (idx', m) := clone mem1 idx in
              new_ir_dereference_array m sv idx'
          | None =>
              let (d, m) := new_ir_dereference_variable mem1 sv in
              (ir_deref_variable d, m)
          end in
        let sub_sig := exact_matching_signature fn (actual_parameters ir) in
        let (new_call, mem3) :=
          new_ir_call mem2 sub_sig (cur_return_deref st) (actual_parameters ir) in
        let (i, mem4) := subr_to_int mem3 var in
        let (cond, mem5) := equal mem4 i lc in
        let (branch, mem6) :=
          if_tree mem5 cond (ir_type_call new_call) (last_branch st) in
        if 0 <? s then
          match cur_return_deref st with
          | None => NullDeref
          | Some d =>
              let (d', mem7) := clone_dereference_variable mem6 d in
              Done {| mem := mem7; last_branch := Some branch;
                      cur_return_deref := Some d' |}
          end
        else
          Done {| mem := mem6; last_branch := Some branch;
                  cur_return_deref := cur_return_deref st |}
  end.

(** [for (int s = n - 1; s >= 0; s--)]. *)
Fixpoint ladder_loop (state : _mesa_glsl_parse_state) (ir : ir_call)
    (sv : ir_variable) (n : nat) (st : ladder_state) : outcome ladder_state :=
  match n with
  | O => Done st
  | S s =>
      st' <- ladder_iteration state ir sv s st ;;
      ladder_loop state ir sv s st'
  end.

(** [lower_subroutine_visitor::visit_leave] on a call.  [prev] holds the
    instructions before the call in the list that owns it; the result
    holds what stands in their place and in the place of the call. *)
Definition visit_leave (v : lower_subroutine_visitor) (m : mem_ctx)
    (prev : list ir_instruction) (ir : ir_call)
  : outcome (lower_subroutine_visitor * mem_ctx * list ir_instruction) :=
  match sub_var ir with
  | None => Done (v, m, prev ++ [ir_type_call ir])
  | Some sv =>
      st <- ladder_loop (state v) ir sv (num_subroutines (state v))
              {| mem := m; last_branch := None;
                 cur_return_deref := return_deref ir |} ;;
      let prev' :=
        match last_branch st with
        | Some ladder => prev ++ [ladder]       (* ir->insert_before *)
        | None => prev
        end in
      Done (v, mem st, prev')                   (* ir->remove *)
  end.

(** Modelled from the spec: [visit_list_elements] (ir_hierarchical_visitor,
    not among the sources) walks the instructions of the list in order,
    and those nested in them, and hands every call to [visit_leave]; an
    instruction spliced in before the current one is not walked. *)
Fixpoint visit (v : lower_subroutine_visitor) (m : mem_ctx)
    (prev : list ir_instruction) (i : ir_instruction) {struct i}
  : outcome (lower_subroutine_visitor * mem_ctx * list ir_instruction) :=
  let visit_list :=
    fix visit_list (l : list ir_instruction) (v : lower_subroutine_visitor)
        (m : mem_ctx) (prev : list ir_instruction) {struct l}
      : outcome (lower_subroutine_visitor * mem_ctx * list ir_instruction) :=
      match l with
      | [] => Done (v, m, prev)
      | i :: next =>
          '(v', m', prev') <- visit v m prev i ;;
          visit_list next v' m' prev'
      end in
  match i with
  | ir_type_call c => visit_leave v m prev c
  | ir_type_if c th el =>
      '(v1, m1, th') <- visit_list th v m [] ;;
      '(v2, m2, el') <- visit_list el v1 m1 [] ;;
      Done (v2, m2, prev ++ [ir_type_if c th' el'])
  | ir_type_assignment _ _ => Done (v, m, prev ++ [i])
  | ir_type_loop b =>
      '(v1, m1, b') <- visit_list b v m [] ;;
      Done (v1, m1, prev ++ [ir_type_loop b'])
  | ir_type_function f b =>
      '(v1, m1, b') <- visit_list b v m [] ;;
      Done (v1, m1, prev ++ [ir_type_function f b'])
  end.

Fixpoint visit_list_elements (v : lower_subroutine_visitor) (m : mem_ctx)
    (prev l : list ir_instruction) {struct l}
  : outcome (lower_subroutine_visitor * mem_ctx * list ir_instruction) :=
  match l with
  | [] => Done (v, m, prev)
  | i :: next =>
      '(v', m', prev') <- visit v m prev i ;;
      visit_list_elements v' m' prev' next
  end.

(** [lower_subroutine]: the rewritten instructions and the progress flag
    of the visitor. *)
Definition lower_subroutine (m : mem_ctx) (instructions : list ir_instruction)
    (state : _mesa_glsl_parse_state) : outcome (list ir_instruction * bool) :=
  let v := {| progress := false; state := state |} in
  '(v', _, instructions') <- visit_list_elements v m [] instructions ;;
  Done (instructions', progress v').


(** *** Reading a ladder *)

(** One rung: the registry index it tests for, its condition and the
    call it guards. *)
Record ladder_branch : Type :=
  { index : nat; test : ir_rvalue; call : ir_call }.

(** The nest of conditionals with the first rung outermost. *)
Fixpoint nest (bs : list ladder_branch) : option ir_instruction :=
  match bs with
  | [] => None
  | b :: rest =>
      Some (ir_type_if (test b) [ir_type_call (call b)]
              match nest rest with
              | Some e => [e]
              | None => []
              end)
  end.

Definition splice (ladder : option ir_instruction) : list ir_instruction :=
  match ladder with
  | Some i => [i]
  | None => []
  end.

(** An rvalue with the identity of its references forgotten: two
    rvalues with the same erasure are the same expression, node for
    node, built at different addresses. *)
Fixpoint erase (r : ir_rvalue) : ir_rvalue :=
  match r with
  | ir_constant t v => ir_constant t v
  | ir_deref_variable d => ir_deref_variable {| addr := 0; var := var d |}
  | ir_dereference_array t a i =>
      ir_dereference_array t {| addr := 0; var := var a |} (erase i)
  | ir_expression1 t op a => ir_expression1 t op (erase a)
  | ir_expression2 t op a b => ir_expression2 t op (erase a) (erase b)
  end.

(** The type of what a call through [sv] is bound to: the element type
    of an array of subroutine variables, the type of a single one. *)
Definition element_type (sv : ir_variable) : glsl_type :=
  match glsl_get_array_element (var_type sv) with
  | Some e => e
  | None => var_type sv
  end.

(** [r] reads what the call [ir] is bound to: the variable [sv] itself
    when the call has no array index, and otherwise the element of [sv]
    at an index that is, node for node, the index expression of the
    call. *)
Definition bound_value_reference (ir : ir_call) (sv : ir_variable)
    (r : ir_rvalue) : Prop :=
  match array_idx ir with
  | None => exists d, r = ir_deref_variable d /\ var d = sv
  | Some idx =>
      exists d idx',
        r = ir_dereference_array (element_type sv) d idx'
        /\ var d = sv /\ erase idx' = erase idx
  end.

(** [cond] is [equal(subr_to_int(var), s)] for a reference [var] to what
    the call [ir] through [sv] is bound to. *)
Definition index_test (ir : ir_call) (sv : ir_variable) (s : nat)
    (cond : ir_rvalue) : Prop :=
  exists r,
    bound_value_reference ir sv r /\
    cond = ir_expression2 (Scalar GLSL_TYPE_BOOL) ir_binop_equal
             (ir_expression1 (Scalar GLSL_TYPE_INT) ir_unop_subroutine_to_int r)
             (ir_constant (Scalar GLSL_TYPE_INT) (Z.of_nat s)).

(** The constant the outermost conditional compares against. *)
Definition outermost_test_constant (i : ir_instruction) : option Z :=
  match i with
  | ir_type_if (ir_expression2 _ ir_binop_equal _ (ir_constant _ k)) _ _ => Some k
  | _ => None
  end.

(** Registry indices below [n] whose candidate is eligible for a call
    through [sv], in ascending order. *)
Definition eligible (state : _mesa_glsl_parse_state) (sv : ir_variable)
    (n : nat) : list nat :=
  filter (fun s => match nth_error (subroutines state) s with
                   | Some fn => is_compat sv fn
                   | None => false
                   end)
         (seq 0 n).

(** Modelled from the spec: what a run is made in: the integer in each
    variable and in each element of an array, and what the operations
    other than [subr_to_int] and [equal] compute. *)
Record store : Type :=
  { read : ir_variable -> Z;
    read_element : ir_variable -> Z -> Z;
    unop : nat -> Z -> Z;
    binop : nat -> Z -> Z -> Z }.

(** Modelled from the spec: the meaning of an rvalue in a store: a
    reference to a variable reads the variable, a reference to an array
    element reads the element at the value of its index, [subr_to_int]
    is the integer held, and booleans are 0 and 1.  An operation applied
    to the wrong number of operands has no value. *)
Fixpoint eval (rho : store) (r : ir_rvalue) : option Z :=
  match r with
  | ir_constant _ k => Some k
  | ir_deref_variable d => Some (read rho (var d))
  | ir_dereference_array _ a i =>
      match eval rho i with
      | Some k => Some (read_element rho (var a) k)
      | None => None
      end
  | ir_expression1 _ ir_unop_subroutine_to_int a => eval rho a
  | ir_expression1 _ (ir_op_other code) a =>
      match eval rho a with
      | Some x => Some (unop rho code x)
      | None => None
      end
  | ir_expression1 _ ir_binop_equal _ => None
  | ir_expression2 _ ir_binop_equal a b =>
      match eval rho a, eval rho b with
      | Some x, Some y => Some (if Z.eqb x y then 1 else 0)%Z
      | _, _ => None
      end
  | ir_expression2 _ (ir_op_other code) a b =>
      match eval rho a, eval rho b with
      | Some x, Some y => Some (binop rho code x y)
      | _, _ => None
      end
  | ir_expression2 _ ir_unop_subroutine_to_int _ _ => None
  end.

(** Modelled from the spec: the bound value of the call [ir] through
    [sv] in a store: what [sv] holds, or what its element at the value
    of the index of the call holds. *)
Definition bound_value (rho : store) (ir : ir_call) (sv : ir_variable)
  : option Z :=
  match array_idx ir with
  | None => Some (read rho sv)
  | Some idx =>
      match eval rho idx with
      | Some k => Some (read_element rho sv k)
      | None => None
      end
  end.

(** Modelled from the spec: the calls a run of an instruction makes, a
    [Conditional] running its then branch or its else branch as its
    condition selects.  Loops and function definitions are given no run
    of their own. *)
Fixpoint executed_calls (rho : store) (i : ir_instruction) {struct i} : list ir_call :=
  let run :=
    fix run (l : list ir_instruction) : list ir_call :=
      match l with
      | [] => []
      | i :: l' => executed_calls rho i ++ run l'
      end in
  match i with
  | ir_type_call c => [c]
  | ir_type_if c th el =>
      match eval rho c with
      | Some 0%Z => run el
      | Some _ => run th
      | None => []
      end
  | _ => []
  end.

Definition run_ladder (rho : store) (ladder : option ir_instruction) : list ir_call :=
  match ladder with
  | Some i => executed_calls rho i
  | None => []
  end.

(** The call of rung [b] is the direct call the loop builds for the
    candidate at its index: the signature the candidate's lookup gives
    for the arguments of [ir] (null when it gives none), the arguments
    of [ir], and no bound variable. *)
Definition direct_call_for (state : _mesa_glsl_parse_state) (ir : ir_call)
    (b : ladder_branch) : Prop :=
  exists fn,
    nth_error (subroutines state) (index b) = Some fn
    /\ callee (call b) = exact_matching_signature fn (actual_parameters ir)
    /\ actual_parameters (call b) = actual_parameters ir
    /\ sub_var (call b) = None
    /\ array_idx (call b) = None.

Definition rung_ok (state : _mesa_glsl_parse_state) (ir : ir_call)
    (sv : ir_variable) (b : ladder_branch) : Prop :=
  index_test ir sv (index b) (test b) /\ direct_call_for state ir b.

(** The return destinations of the rungs, outermost first. *)
Definition destinations (bs : list ladder_branch)
  : list (option ir_dereference_variable) :=
  map (fun b => return_deref (call b)) bs.

(** [d] is a reference allocated between [lo] and [hi] to the variable
    that [orig] refers to. *)
Definition fresh_clone (lo hi : mem_ctx) (orig : option ir_dereference_variable)
    (d : ir_dereference_variable) : Prop :=
  lo <= addr d < hi /\ exists d0, orig = Some d0 /\ var d = var d0.

(** The candidate at index [s] is eligible for a call through [sv]. *)
Definition eligible_at (state : _mesa_glsl_parse_state) (sv : ir_variable)
    (s : nat) : bool :=
  match nth_error (subroutines state) s with
  | Some fn => is_compat sv fn
  | None => false
  end.

(** Induction principle that reaches the instructions nested in
    conditionals, loops and function bodies. *)
Section ir_instruction_induction.
Variable P : ir_instruction -> Prop.
Hypothesis Hcall : forall c, P (ir_type_call c).
Hypothesis Hif : forall c th el,
    Forall P th -> Forall P el -> P (ir_type_if c th el).
Hypothesis Hassignment : forall l r, P (ir_type_assignment l r).
Hypothesis Hloop : forall b, Forall P b -> P (ir_type_loop b).
Hypothesis Hfunction : forall f b, Forall P b -> P (ir_type_function f b).

Fixpoint ir_instruction_nested_ind (i : ir_instruction) : P i :=
  let all :=
    fix all (l : list ir_instruction) : Forall P l :=
      match l with
      | [] => Forall_nil P
      | i :: l' =>
          @Forall_cons _ P i l' (ir_instruction_nested_ind i) (all l')
      end in
  match i with
  | ir_type_call c => Hcall c
  | ir_type_if c th el => Hif c th el (all th) (all el)
  | ir_type_assignment l r => Hassignment l r
  | ir_type_loop b => Hloop b (all b)
  | ir_type_function f b => Hfunction f b (all b)
  end.
End ir_instruction_induction.

(** No visit of the instruction writes to the visitor. *)
Definition keeps_visitor (i : ir_instruction) : Prop :=
  forall v m prev v' m' prev',
    visit v m prev i = Done (v', m', prev') -> v' = v.

(** The instruction is, or holds, a call through a subroutine variable. *)
Fixpoint has_indirect (i : ir_instruction) {struct i} : bool :=
  let any :=
    fix any (l : list ir_instruction) : bool :=
      match l with
      | [] => false
      | i :: l' => has_indirect i || any l'
      end in
  match i with
  | ir_type_call c =>
      match sub_var c with
      | Some _ => true
      | None => false
      end
  | ir_type_if _ th el => any th || any el
  | ir_type_assignment _ _ => false
  | ir_type_loop b => any b
  | ir_type_function _ b => any b
  end.

Definition any_indirect (l : list ir_instruction) : bool :=
  existsb has_indirect l.

(** The walk leaves the instruction as it is and allocates nothing. *)
Definition untouched (i : ir_instruction) : Prop :=
  has_indirect i = false ->
  forall v m prev, visit v m prev i = Done (v, m, prev ++ [i]).

(** Whatever the walk makes of the instruction holds no indirect call. *)
Definition lowered (i : ir_instruction) : Prop :=
  forall v m prev v' m' prev',
    visit v m prev i = Done (v', m', prev') ->
    any_indirect prev = false -> any_indirect prev' = false.

(** *** The loop with the constructor of [ir_call] left open

    [visit_leave] hands the result of [exact_matching_signature] to the
    constructor of [ir_call] without looking at it.  The constructor is
    declared in ir.h, which is not among the sources, and what it makes
    of a null signature is not written anywhere.  Here the loop is
    stated once more with the constructor as a parameter that may
    return a call or not return at all; [visit_leave] above is the
    instance whose constructor stores what it is given. *)
Section ir_call_constructor.
Variable ir_call_new :
  mem_ctx -> option ir_function_signature -> option ir_dereference_variable ->
  list ir_rvalue -> outcome (ir_call * mem_ctx).

Definition ladder_iteration_with (state : _mesa_glsl_parse_state) (ir : ir_call)
    (sv : ir_variable) (s : nat) (st : ladder_state) : outcome ladder_state :=
  let (lc, mem1) := new_ir_constant (mem st) s in
  match nth_error (subroutines state) s with
  | None => AssertFailed
  | Some fn =>
      if negb (is_compat sv fn) then
        Done {| mem := mem1; last_branch := last_branch st;
                cur_return_deref := cur_return_deref st |}
      else
        let (var, mem2) :=
          match array_idx ir with
          | Some idx =>
              let (idx', m) := clone mem1 idx in
              new_ir_dereference_array m sv idx'
          | None =>
              let (d, m) := new_ir_dereference_variable mem1 sv in
              (ir_deref_variable d, m)
          end in
        let sub_sig := exact_matching_signature fn (actual_parameters ir) in
        '(new_call, mem3) <-
          ir_call_new mem2 sub_sig (cur_return_deref st) (actual_parameters ir) ;;
        let (i, mem4) := subr_to_int mem3 var in
        let (cond, mem5) := equal mem4 i lc in
        let (branch, mem6) :=
          if_tree mem5 cond (ir_type_call new_call) (last_branch st) in
        if 0 <? s then
          match cur_return_deref st with
          | None => NullDeref
          | Some d =>
              let (d', mem7) := clone_dereference_variable mem6 d in
              Done {| mem := mem7; last_branch := Some branch;
                      cur_return_deref := Some d' |}
          end
        else
          Done {| mem := mem6; last_branch := Some branch;
                  cur_return_deref := cur_return_deref st |}
  end.

Fixpoint ladder_loop_with (state : _mesa_glsl_parse_state) (ir : ir_call)
    (sv : ir_variable) (n : nat) (st : ladder_state) : outcome ladder_state :=
  match n with
  | O => Done st
  | S s =>
      st' <- ladder_iteration_with state ir sv s st ;;
      ladder_loop_with state ir sv s st'
  end.

Definition visit_leave_with (v : lower_subroutine_visitor) (m : mem_ctx)
    (prev : list ir_instruction) (ir : ir_call)
  : outcome (lower_subroutine_visitor * mem_ctx * list ir_instruction) :=
  match sub_var ir with
  | None => Done (v, m, prev ++ [ir_type_call ir])
  | Some sv =>
      st <- ladder_loop_with (state v) ir sv (num_subroutines (state v))
              {| mem := m; last_branch := None;
                 cur_return_deref := return_deref ir |} ;;
      let prev' :=
        match last_branch st with
        | Some ladder => prev ++ [ladder]
        | None => prev
        end in
      Done (v, mem st, prev')
  end.

(** Rung [b] tests the bound value for its index, and its call is what
    the constructor returned for the signature that the lookup of the
    candidate at that index gave. *)
Definition rung_built (state : _mesa_glsl_parse_state) (ir : ir_call)
    (sv : ir_variable) (b : ladder_branch) : Prop :=
  index_test ir sv (index b) (test b)
  /\ exists fn mem0 dest mem1,
      nth_error (subroutines state) (index b) = Some fn
      /\ ir_call_new mem0 (exact_matching_signature fn (actual_parameters ir))
           dest (actual_parameters ir)
         = Done (call b, mem1).
End ir_call_constructor.

(** The constructor of [visit_leave]: it stores what it is given. *)
Definition ir_call_stored (mem : mem_ctx) (callee : option ir_function_signature)
    (return_deref : option ir_dereference_variable)
    (actual_parameters : list ir_rvalue) : outcome (ir_call * mem_ctx) :=
  Done (new_ir_call mem callee return_deref actual_parameters).

(** *** Sample programs *)

(** Two interface types, told apart by their shape only. *)
Definition T : glsl_type := Scalar GLSL_TYPE_UINT.
Definition U : glsl_type := Scalar GLSL_TYPE_INT.
Definition float : glsl_type := Scalar GLSL_TYPE_FLOAT.

Definition sig (f : string) (ps : list glsl_type) : ir_function_signature :=
  {| function_name := f; return_type := Some float; parameters := ps |}.

Definition candidate (f : string) (t : glsl_type) : ir_function :=
  {| name := f; signatures := [sig f [float]]; subroutine_types := [t] |}.

(** A registry in which the candidates at indices 1, 3 and 4 declare [T]. *)
Definition sample_state : _mesa_glsl_parse_state :=
  {| subroutines := [candidate "f0" U; candidate "f1" T; candidate "f2" U;
                     candidate "f3" T; candidate "f4" T] |}.

Definition selector : ir_variable := {| var_name := "selector"; var_type := T |}.
Definition result : ir_variable := {| var_name := "result"; var_type := float |}.
Definition arg : ir_variable := {| var_name := "arg"; var_type := float |}.

Definition result_ref : ir_dereference_variable := {| addr := 0; var := result |}.
Definition arg_ref : ir_dereference_variable := {| addr := 1; var := arg |}.

(** [result = selector(arg)], an indirect call with a return destination. *)
Definition sample_call : ir_call :=
  {| callee := None; return_deref := Some result_ref;
     actual_parameters := [ir_deref_variable arg_ref];
     sub_var := Some selector; array_idx := None |}.

(** [result = selectors[which](arg)], an indirect call through an
    element of an array of subroutine variables. *)
Definition selectors : ir_variable :=
  {| var_name := "selectors"; var_type := Array T 2 |}.
Definition which : ir_variable :=
  {| var_name := "which"; var_type := Scalar GLSL_TYPE_INT |}.
Definition which_ref : ir_dereference_variable := {| addr := 3; var := which |}.

Definition array_call : ir_call :=
  {| callee := None; return_deref := Some result_ref;
     actual_parameters := [ir_deref_variable arg_ref];
     sub_var := Some selectors; array_idx := Some (ir_deref_variable which_ref) |}.

(** [selector(arg)] for a subroutine returning nothing. *)
Definition void_call : ir_call :=
  {| callee := None; return_deref := None;
     actual_parameters := [ir_deref_variable arg_ref];
     sub_var := Some selector; array_idx := None |}.

(** A call through a variable whose type no candidate declares. *)
Definition orphan : ir_variable := {| var_name := "orphan"; var_type := float |}.
Definition orphan_call : ir_call :=
  {| callee := None; return_deref := Some result_ref;
     actual_parameters := [ir_deref_variable arg_ref];
     sub_var := Some orphan; array_idx := None |}.

(** A registry whose one candidate is eligible for [selector] but has no
    signature taking one float. *)
Definition mismatch_state : _mesa_glsl_parse_state :=
  {| subroutines :=
       [ {| name := "g0"; signatures := [sig "g0" [float; float]];
            subroutine_types := [T] |} ] |}.

Definition sample_visitor (st : _mesa_glsl_parse_state) : lower_subroutine_visitor :=
  {| progress := false; state := st |}.

Definition assign_result : ir_instruction :=
  ir_type_assignment (ir_deref_variable {| addr := 2; var := result |})
                     (ir_constant float 0).

(** A direct call of candidate [f1]. *)
Definition direct_call : ir_call :=
  {| callee := Some (sig "f1" [float]); return_deref := Some result_ref;
     actual_parameters := [ir_deref_variable arg_ref];
     sub_var := None; array_idx := None |}.

(** A program whose only call is direct, nested in a conditional. *)
Definition direct_program : list ir_instruction :=
  [ir_type_function "main"
     [assign_result;
      ir_type_if (ir_constant float 1)
        [ir_type_call direct_call] [ir_type_loop [assign_result]]]].

(** A program with two indirect calls, one in a loop in a conditional. *)
Definition nested_program : list ir_instruction :=
  [ir_type_function "main"
     [ir_type_if (ir_constant float 1)
        [ir_type_loop [ir_type_call sample_call]]
        [ir_type_call orphan_call]]].

(** A store in which [which] holds 1 and the elements 0 and 1 of any
    array hold 1 and 3. *)
Definition sample_store : store :=
  {| read := fun v => if String.eqb (var_name v) "which" then 1%Z else 0%Z;
     read_element := fun _ k => if Z.eqb k 1 then 3%Z else 1%Z;
     unop := fun _ x => x;
     binop := fun _ x _ => x |}.

End Ir.

(* ================================================================== *)
(** ** pthread_attr_setschedparam
    (the second unit of src/mesalib/src/compiler/nir/nir_split_var_copies.c) *)

Module Sched.

Section pthread_attr_setschedparam.

(** What pthread.h, sched.h, implement.h and errno.h declare is not
    among the sources and is taken as given: the scheduling parameters
    and their priority member, the other members of an attribute
    object, the validity test of attribute handles, the priority range
    of [SCHED_OTHER] and the error number. *)
Variable sched_param : Type.
Variable sched_priority : sched_param -> Z.
Variable attr_members : Type.
Variable sched_get_priority_min : Z.
Variable sched_get_priority_max : Z.
Variable EINVAL : Z.

(** The object an attribute handle points to. *)
Record pthread_attr_t_ : Type :=
  { param : sched_param; members : attr_members }.

(** [pthread_attr_t *]: a pointer, maybe null, to a handle, maybe null. *)
Definition attr_pointer : Type := option (option pthread_attr_t_).

Variable ptw32_is_attr : attr_pointer -> Z.

(** The function returns the error number and leaves behind what [attr]
    points to. *)
Definition pthread_attr_setschedparam (attr : attr_pointer)
    (param : option sched_param) : outcome (attr_pointer * Z) :=
  match param with
  | None => Done (attr, EINVAL)            (* ... || param == NULL *)
  | Some prm =>
      if negb (ptw32_is_attr attr =? 0)%Z then Done (attr, EINVAL)
      else
        let priority := sched_priority prm in
        if ((priority <? sched_get_priority_min)
            || (sched_get_priority_max <? priority))%Z
        then Done (attr, EINVAL)
        else
          match attr with
          | Some (Some a) =>               (* memcpy (&( *attr)->param, ...) *)
              Done (Some (Some {| param := prm; members := members a |}), 0%Z)
          | _ => NullDeref
          end
  end.

End pthread_attr_setschedparam.

(** A sample instance: priorities are the parameters themselves, the
    range is -15 .. 15, a handle is valid when nothing is null. *)
Definition sample_is_attr (attr : attr_pointer Z nat) : Z :=
  match attr with
  | Some (Some _) => 0%Z
  | _ => 1%Z
  end.

Definition sample_attr : attr_pointer Z nat :=
  Some (Some {| param := 0%Z; members := 7 |}).

Definition sample_set :=
  pthread_attr_setschedparam Z (fun z : Z => z) nat (-15)%Z 15%Z 22%Z
    sample_is_attr.

End Sched.

(* ================================================================== *)
(** ** The thread reuse list (src/pthreads/ptw32_reuse.c)

    Both functions run their whole body under [ptw32_thread_reuse_lock];
    the model is the change of state that one such critical section
    makes. *)

Module Reuse.

(** A pointer to a thread struct: null, the marker
    [PTW32_THREAD_REUSE_EMPTY] that ends the list, or an address. *)
Inductive pointer : Type :=
| NULL
| PTW32_THREAD_REUSE_EMPTY
| Addr (a : nat).

Definition pointer_eqb (p q : pointer) : bool :=
  match p, q with
  | NULL, NULL => true
  | PTW32_THREAD_REUSE_EMPTY, PTW32_THREAD_REUSE_EMPTY => true
  | Addr a, Addr b => Nat.eqb a b
  | _, _ => false
  end.

(** The handle given to applications: the thread struct and the reuse
    counter, a 32 bit unsigned number. *)
Record pthread_t : Type := { p : pointer; x : Z }.

Definition reuse_counter_modulus : Z := 2 ^ 32.

Section thread_reuse.

(** What implement.h declares is not among the sources and is taken as
    given: the thread states with the one a reusable thread is in, the
    other members of a thread struct with what they are when all their
    bytes are zero, and whether the build defines a reuse increment. *)
Variable PThreadState : Type.
Variable PThreadStateReuse : PThreadState.
Variable thread_members : Type.
Variable zeroed_members : thread_members.
Variable PTW32_THREAD_ID_REUSE_INCREMENT : option Z.

Record ptw32_thread_t : Type :=
  { ptHandle : pthread_t;
    state : PThreadState;
    prevReuse : pointer;
    members : thread_members }.

(** The thread structs, by address, and the two ends of the list. *)
Record reuse_state : Type :=
  { heap : nat -> option ptw32_thread_t;
    ptw32_threadReuseTop : pointer;
    ptw32_threadReuseBottom : pointer }.

Definition load (h : nat -> option ptw32_thread_t) (q : pointer)
  : outcome (nat * ptw32_thread_t) :=
  match q with
  | Addr a =>
      match h a with
      | Some t => Done (a, t)
      | None => NullDeref
      end
  | _ => NullDeref
  end.

Definition store (h : nat -> option ptw32_thread_t) (a : nat)
    (t : ptw32_thread_t) : nat -> option ptw32_thread_t :=
  fun b => if Nat.eqb b a then Some t else h b.

Definition set_prevReuse (t : ptw32_thread_t) (q : pointer) : ptw32_thread_t :=
  {| ptHandle := ptHandle t; state := state t; prevReuse := q;
     members := members t |}.

(** [ptw32_threadReusePop]. *)
Definition ptw32_threadReusePop (st : reuse_state)
  : outcome (reuse_state * pthread_t) :=
  let t := {| p := NULL; x := 0 |} in
  if negb (pointer_eqb PTW32_THREAD_REUSE_EMPTY (ptw32_threadReuseTop st)) then
    '(a, tp) <- load (heap st) (ptw32_threadReuseTop st) ;;
    let top := prevReuse tp in
    let bottom :=
      if pointer_eqb PTW32_THREAD_REUSE_EMPTY top
      then PTW32_THREAD_REUSE_EMPTY
      else ptw32_threadReuseBottom st in
    Done ({| heap := store (heap st) a (set_prevReuse tp NULL);
             ptw32_threadReuseTop := top;
             ptw32_threadReuseBottom := bottom |},
          ptHandle tp)
  else Done (st, t).

(** The thread struct after the [memset], the restored handle, the
    bumped counter, the new state and the new link. *)
Definition reusable (t : pthread_t) : ptw32_thread_t :=
  {| ptHandle :=
       {| p := p t;
          x := (x t + match PTW32_THREAD_ID_REUSE_INCREMENT with
                      | Some inc => inc
                      | None => 1
                      end) mod reuse_counter_modulus |};
     state := PThreadStateReuse;
     prevReuse := PTW32_THREAD_REUSE_EMPTY;
     members := zeroed_members |}.

(** [ptw32_threadReusePush]. *)
Definition ptw32_threadReusePush (st : reuse_state) (thread : pthread_t)
  : outcome reuse_state :=
  '(a, tp) <- load (heap st) (p thread) ;;
  let t := ptHandle tp in
  let h1 := store (heap st) a (reusable t) in
  if negb (pointer_eqb PTW32_THREAD_REUSE_EMPTY (ptw32_threadReuseBottom st)) then
    '(b, bottom) <- load h1 (ptw32_threadReuseBottom st) ;;
    Done {| heap := store h1 b (set_prevReuse bottom (Addr a));
            ptw32_threadReuseTop := ptw32_threadReuseTop st;
            ptw32_threadReuseBottom := Addr a |}
  else
    Done {| heap := h1;
            ptw32_threadReuseTop := Addr a;
            ptw32_threadReuseBottom := Addr a |}.

(** *** The list the state holds *)

(** From [from], the links lead through exactly the addresses of [l]
    and end at the marker. *)
Fixpoint chain (h : nat -> option ptw32_thread_t) (from : pointer)
    (l : list nat) : Prop :=
  match l with
  | [] => from = PTW32_THREAD_REUSE_EMPTY
  | a :: l' =>
      from = Addr a /\ exists t, h a = Some t /\ chain h (prevReuse t) l'
  end.

Definition bottom_of (l : list nat) : pointer :=
  match l with
  | [] => PTW32_THREAD_REUSE_EMPTY
  | a :: l' => Addr (last l' a)
  end.

(** The state holds the threads at the addresses of [l], the one to be
    popped next first. *)
Definition holds (st : reuse_state) (l : list nat) : Prop :=
  chain (heap st) (ptw32_threadReuseTop st) l
  /\ ptw32_threadReuseBottom st = bottom_of l
  /\ NoDup l.

(** The test the header comment gives for a stale handle:
    [copy.x != ((ptw32_thread_t * ) copy.p)->ptHandle.x]. *)
Definition threadDestroyed (h : nat -> option ptw32_thread_t)
    (copy : pthread_t) : outcome bool :=
  '(_, t) <- load h (p copy) ;;
  Done (negb (x copy =? x (ptHandle t))%Z).

End thread_reuse.

(** A sample instance: two thread structs at addresses 1 and 2, an
    empty list. *)
Definition sample_thread (a : nat) (count : Z) : ptw32_thread_t nat nat :=
  {| ptHandle := {| p := Addr a; x := count |}; state := 3;
     prevReuse := NULL; members := 9 |}.

Definition sample_state : reuse_state nat nat :=
  {| heap := fun a => match a with
                      | 1 => Some (sample_thread 1 0)
                      | 2 => Some (sample_thread 2 5)
                      | _ => None
                      end;
     ptw32_threadReuseTop := PTW32_THREAD_REUSE_EMPTY;
     ptw32_threadReuseBottom := PTW32_THREAD_REUSE_EMPTY |}.

(** The same two thread structs on the list, the one at address 1 to be
    popped first. *)
Definition linked_state : reuse_state nat nat :=
  {| heap := fun a => match a with
                      | 1 => Some {| ptHandle := {| p := Addr 1; x := 0 |};
                                     state := 3; prevReuse := Addr 2;
                                     members := 9 |}
                      | 2 => Some {| ptHandle := {| p := Addr 2; x := 5 |};
                                     state := 3;
                                     prevReuse := PTW32_THREAD_REUSE_EMPTY;
                                     members := 9 |}
                      | _ => None
                      end;
     ptw32_threadReuseTop := Addr 1;
     ptw32_threadReuseBottom := Addr 2 |}.

End Reuse.

(* ================================================================== *)
(** ** sem_post_multiple (src/pthreads/sem_post_multiple.c)

    The body runs under the lock of the semaphore; the model is the
    change of state of that critical section, given what the call to
    the operating system answers. *)

Module Sem.

Definition INT_MIN : Z := - 2 ^ 31.
Definition INT_MAX : Z := 2 ^ 31 - 1.

(** A run ends by returning, by following a null pointer, or by a
    signed overflow. *)
Inductive run (A : Type) : Type :=
| Ret (a : A)
| NullPointer
| SignedOverflow.

Arguments Ret {A} a.
Arguments NullPointer {A}.
Arguments SignedOverflow {A}.

Definition run_bind {A B : Type} (m : run A) (k : A -> run B) : run B :=
  match m with
  | Ret a => k a
  | NullPointer => NullPointer
  | SignedOverflow => SignedOverflow
  end.

(** The value of an [int] expression. *)
Definition int (z : Z) : run Z :=
  if ((INT_MIN <=? z) && (z <=? INT_MAX))%Z then Ret z else SignedOverflow.

(** The members of [sem_t_] the function reads and writes besides the
    lock and the handle of the operating system's object. *)
Record sem_t_ : Type := { value : Z; leftToUnblock : Z }.

(** The call made to the operating system. *)
Inductive os_call : Type :=
| SetEvent
| ReleaseSemaphore (lReleaseCount : Z).

(** What the function leaves behind: the semaphore, the call it made if
    any, the error number it stored if any, and what it returned. *)
Record posted : Type :=
  { sem_after : sem_t_;
    called : option os_call;
    errno : option Z;
    returned : Z }.

Section sem_post_multiple.

(** What semaphore.h and errno.h define is not among the sources and is
    taken as given, as are the build flag [NEED_SEM] and the answer of
    the operating system to a call. *)
Variable SEM_VALUE_MAX : Z.
Variable EINVAL : Z.
Variable ERANGE : Z.
Variable NEED_SEM : bool.
Variable os_succeeds : os_call -> bool.

(** The end of the function: [errno] is set and -1 returned when
    [result] is not 0. *)
Definition finish (s : sem_t_) (call : option os_call) (result : Z) : run posted :=
  Ret {| sem_after := s; called := call;
         errno := if (result =? 0)%Z then None else Some result;
         returned := if (result =? 0)%Z then 0%Z else (-1)%Z |}.

Definition sem_post_multiple (sem : option (option sem_t_)) (count : Z)
  : run posted :=
  match sem with
  | Some (Some s) =>
      run_bind (int (SEM_VALUE_MAX - count)) (fun limit =>
      if (value s <=? limit)%Z then
        run_bind (int (- value s)) (fun waiters =>
        run_bind (int (value s + count)) (fun value1 =>
        if (0 <? waiters)%Z then
          if NEED_SEM then
            if os_succeeds SetEvent then
              run_bind (int (waiters - 1)) (fun waiters1 =>
              run_bind (int (count - 1)) (fun count1 =>
              run_bind (int (leftToUnblock s + count1)) (fun left1 =>
              let left2 := if (waiters1 <? left1)%Z then waiters1 else left1 in
              finish {| value := value1; leftToUnblock := left2 |}
                     (Some SetEvent) 0)))
            else
              run_bind (int (value1 - count)) (fun value2 =>
              finish {| value := value2; leftToUnblock := leftToUnblock s |}
                     (Some SetEvent) EINVAL)
          else
            let n := if (waiters <=? count)%Z then waiters else count in
            if os_succeeds (ReleaseSemaphore n) then
              finish {| value := value1; leftToUnblock := leftToUnblock s |}
                     (Some (ReleaseSemaphore n)) 0
            else
              run_bind (int (value1 - count)) (fun value2 =>
              finish {| value := value2; leftToUnblock := leftToUnblock s |}
                     (Some (ReleaseSemaphore n)) EINVAL)
        else
          finish {| value := value1; leftToUnblock := leftToUnblock s |} None 0))
      else finish s None ERANGE)
  | _ => NullPointer
  end.

End sem_post_multiple.

(** A sample instance: the limit is [INT_MAX], the error numbers are 22
    and 34, the operating system grants every call. *)
Definition sample_post (NEED_SEM : bool) :=
  sem_post_multiple INT_MAX 22 34 NEED_SEM (fun _ => true).

Definition three_waiting : sem_t_ := {| value := -3; leftToUnblock := 0 |}.

End Sem.

(* ================================================================== *)
(** * Properties *)

Import Glsl.

Lemma height_Struct fs : height (Struct fs) = S (fields_height fs).
Proof.
  reflexivity.
Qed.

Lemma glsl_base_type_eqb_eq a b : glsl_base_type_eqb a b = true <-> a = b.
Proof. destruct a, b; simpl; split; congruence. Qed.

Lemma glsl_type_eqb_refl t : glsl_type_eqb t t = true.
Proof.
  induction t using glsl_type_nested_ind; simpl.
  - now apply glsl_base_type_eqb_eq.
  - rewrite Nat.eqb_refl, andb_true_r. now apply glsl_base_type_eqb_eq.
  - rewrite !Nat.eqb_refl, !andb_true_r. now apply glsl_base_type_eqb_eq.
  - rewrite IHt, Nat.eqb_refl. reflexivity.
  - induction H as [|f fs Hf _ IH]; [reflexivity|].
    now rewrite Hf, IH.
Qed.

Lemma glsl_type_eqb_eq a b : glsl_type_eqb a b = true <-> a = b.
Proof.
  split; [|intros ->; apply glsl_type_eqb_refl].
  revert b. induction a using glsl_type_nested_ind; intros [] E; simpl in E;
    try discriminate.
  - apply glsl_base_type_eqb_eq in E. now subst.
  - apply andb_true_iff in E as [E1 E2].
    apply glsl_base_type_eqb_eq in E1. apply Nat.eqb_eq in E2. now subst.
  - apply andb_true_iff in E as [E12 E3]. apply andb_true_iff in E12 as [E1 E2].
    apply glsl_base_type_eqb_eq in E1. apply Nat.eqb_eq in E2, E3. now subst.
  - apply andb_true_iff in E as [E1 E2].
    apply IHa in E1. apply Nat.eqb_eq in E2. now subst.
  - f_equal. revert fields E.
    induction H as [|f fs Hf _ IH]; intros [|g gs] E; try discriminate.
    + reflexivity.
    + apply andb_true_iff in E as [E1 E2].
      f_equal; [now apply Hf | now apply IH].
Qed.


(* ================================================================== *)
(** ** Copy splitting *)

Import Nir.

Lemma bind_Done {A B : Type} (m : outcome A) (k : A -> outcome B) (r : B) :
  bind m k = Done r -> exists a, m = Done a /\ k a = Done r.
Proof. destruct m; simpl; try discriminate. intros H. eauto. Qed.

Lemma emit_nil b : emit b [] = b.
Proof. destruct b. unfold emit. simpl. now rewrite app_nil_r. Qed.

Lemma emit_emit b l l' : emit (emit b l) l' = emit b (l ++ l').
Proof. unfold emit. simpl. now rewrite app_assoc. Qed.

Lemma insert_emit b i : nir_builder_instr_insert b i = emit b [i].
Proof. reflexivity. Qed.

Lemma split_emission_Struct fs dst src :
  split_emission (Struct fs) dst src = fields_emission dst src fs 0.
Proof. reflexivity. Qed.

Lemma fields_emission_cons dst src f fs i :
  fields_emission dst src (f :: fs) i =
  nir_instr_type_deref (nir_deref_type_struct dst i f)
    :: nir_instr_type_deref (nir_deref_type_struct src i f)
    :: split_emission f (nir_deref_type_struct dst i f)
                        (nir_deref_type_struct src i f)
       ++ fields_emission dst src fs (S i).
Proof. reflexivity. Qed.

Lemma height_field_lt f fs : In f fs -> height f <= fields_height fs.
Proof.
  induction fs as [|g fs IH]; simpl; [tauto|].
  intros [->|H]; [lia|]. specialize (IH H). lia.
Qed.

Lemma split_fields_loop fuel dst src fs :
  type dst = Struct fs -> type src = Struct fs ->
  Forall refines fs -> fields_height fs < fuel ->
  forall rest done b,
    fs = done ++ rest ->
    for_loop (List.length rest) (List.length done)
      (fun i b =>
         '(b1, d) <- nir_build_deref_struct b dst i ;;
         '(b2, s) <- nir_build_deref_struct b1 src i ;;
         split_deref_copy_instr_fuel fuel b2 d s)
      b
    = Done (emit b (fields_emission dst src rest (List.length done))).
Proof.
  intros Hd Hs IH Hfuel rest.
  induction rest as [|f rest IHrest]; intros done b E.
  - simpl. now rewrite emit_nil.
  - assert (Hnth : nth_error fs (List.length done) = Some f).
    { rewrite E, nth_error_app2, Nat.sub_diag by lia. reflexivity. }
    assert (Hin : In f fs) by (rewrite E; apply in_elt).
    cbn [List.length for_loop].
    unfold nir_build_deref_struct at 1 2.
    rewrite Hd, Hs. cbn [glsl_get_struct_field]. rewrite Hnth.
    cbn [bind]. rewrite !insert_emit, emit_emit.
    rewrite Forall_forall in IH. rewrite (IH f Hin); try reflexivity.
    2:{ pose proof (height_field_lt _ _ Hin). lia. }
    cbn [bind].
    replace (S (List.length done)) with (List.length (done ++ [f]))
      by (rewrite length_app; simpl; lia).
    rewrite IHrest by (rewrite <- app_assoc; exact E).
    rewrite !emit_emit, fields_emission_cons.
    rewrite length_app. simpl. rewrite Nat.add_1_r. reflexivity.
Qed.

Lemma split_fuel_emission t : refines t.
Proof.
  induction t using glsl_type_nested_ind; intros fuel bd dst src Hs Hd Hfuel;
    (destruct fuel as [|fuel]; [simpl in Hfuel; lia|]);
    cbn [split_deref_copy_instr_fuel]; rewrite Hd, Hs, glsl_type_eqb_refl;
    cbn [assert bind glsl_type_is_vector_or_scalar glsl_type_is_struct
         glsl_type_is_matrix glsl_type_is_array orb].
  - reflexivity.
  - reflexivity.
  - unfold nir_build_deref_array_wildcard. rewrite Hd, Hs.
    cbn [glsl_get_array_element bind].
    destruct fuel as [|fuel]; [simpl in Hfuel; lia|].
    cbn [split_deref_copy_instr_fuel type]. rewrite glsl_type_eqb_refl.
    cbn [assert bind glsl_type_is_vector_or_scalar].
    unfold nir_copy_deref. rewrite !insert_emit, !emit_emit. reflexivity.
  - unfold nir_build_deref_array_wildcard. rewrite Hd, Hs.
    cbn [glsl_get_array_element bind].
    rewrite IHt; try reflexivity; [|simpl in Hfuel; lia].
    rewrite !insert_emit, !emit_emit. reflexivity.
  - cbn [glsl_get_length].
    rewrite height_Struct in Hfuel.
    exact (@split_fields_loop fuel dst src fs Hd Hs H ltac:(lia) fs [] bd eq_refl).
Qed.

Lemma split_deref_copy_instr_emission b dst src :
  type dst = type src ->
  split_deref_copy_instr b dst src
  = Done (emit b (split_emission (type src) dst src)).
Proof.
  intros E. unfold split_deref_copy_instr.
  apply split_fuel_emission; [reflexivity | exact E | lia].
Qed.

Lemma split_deref_copy_instr_mismatch b dst src :
  type dst <> type src -> split_deref_copy_instr b dst src = AssertFailed.
Proof.
  intros N. unfold split_deref_copy_instr. cbn [split_deref_copy_instr_fuel].
  destruct (glsl_type_eqb (type dst) (type src)) eqn:E.
  - apply glsl_type_eqb_eq in E. contradiction.
  - reflexivity.
Qed.

Lemma split_deref_copy_instr_Done b dst src b' :
  split_deref_copy_instr b dst src = Done b' -> type dst = type src.
Proof.
  intros H. destruct (glsl_type_eqb (type dst) (type src)) eqn:E.
  - now apply glsl_type_eqb_eq.
  - rewrite split_deref_copy_instr_mismatch in H; [discriminate|].
    intros C. apply glsl_type_eqb_eq in C. congruence.
Qed.

Lemma copies_of_app l l' : copies_of (l ++ l') = copies_of l ++ copies_of l'.
Proof.
  induction l as [|i l IH]; [reflexivity|].
  destruct i as [| |[]|]; simpl; now rewrite IH.
Qed.

Lemma has_copy_app l l' : has_copy (l ++ l') = has_copy l || has_copy l'.
Proof. apply existsb_app. Qed.

(** Properties of what one split emits, by induction on the type. *)
Section emission.
Variable P : list nir_instr -> Prop.
Hypothesis P_nil : P [].
Hypothesis P_deref : forall d l, P l -> P (nir_instr_type_deref d :: l).
Hypothesis P_app : forall l l', P l -> P l' -> P (l ++ l').
Hypothesis P_leaf : forall d s,
    type d = type s -> glsl_type_is_vector_or_scalar (type s) = true ->
    P [copy_instr d s].

Lemma emission_ind t : forall d s,
    type d = t -> type s = t -> P (split_emission t d s).
Proof.
  induction t using glsl_type_nested_ind; intros d s Hd Hs.
  - apply P_leaf; [congruence | now rewrite Hs].
  - apply P_leaf; [congruence | now rewrite Hs].
  - simpl. do 2 apply P_deref. now apply P_leaf.
  - simpl. do 2 apply P_deref. now apply IHt.
  - rewrite split_emission_Struct. clear Hd Hs. generalize 0 as i.
    induction H as [|f fs Hf _ IH]; intros i; [exact P_nil|].
    rewrite fields_emission_cons. do 2 apply P_deref.
    apply P_app; [now apply Hf | apply IH].
Qed.
End emission.

Lemma emission_copies_leaf t d s :
  type d = t -> type s = t ->
  Forall (fun c => leaf_copy c /\ type (fst c) = type (snd c))
         (copies_of (split_emission t d s)).
Proof.
  apply emission_ind with
    (P := fun l => Forall (fun c => leaf_copy c /\ type (fst c) = type (snd c))
                          (copies_of l)).
  - constructor.
  - intros; assumption.
  - intros l l' H H'. rewrite copies_of_app. now apply Forall_app.
  - intros d' s' E L. repeat constructor; simpl; congruence.
Qed.

Lemma emission_fixed t d s :
  type d = t -> type s = t ->
  flat_map expand (split_emission t d s) = split_emission t d s.
Proof.
  apply emission_ind with (P := fun l => flat_map expand l = l).
  - reflexivity.
  - intros d' l E. simpl. now rewrite E.
  - intros l l' E E'. now rewrite flat_map_app, E, E'.
  - intros d' s' E L. simpl. rewrite app_nil_r.
    destruct (type s'); try discriminate; reflexivity.
Qed.

Lemma emission_copy_count t : forall d s,
  List.length (copies_of (split_emission t d s)) = leaf_count t.
Proof.
  induction t using glsl_type_nested_ind; intros d s; try reflexivity.
  - simpl. apply IHt.
  - rewrite split_emission_Struct.
    enough (E : forall i, List.length (copies_of (fields_emission d s fs i))
                          = leaf_count (Struct fs)) by apply E.
    induction H as [|f fs Hf _ IH]; intros i; [reflexivity|].
    rewrite fields_emission_cons. cbn [copies_of].
    rewrite copies_of_app, length_app, Hf, IH. reflexivity.
Qed.

(** *** The pass as a whole *)

Lemma copies_typed_cons i l :
  copies_typed (i :: l) <->
  (match i with
   | nir_instr_type_intrinsic (nir_intrinsic_copy_deref d s) => type d = type s
   | _ => True
   end) /\ copies_typed l.
Proof.
  unfold copies_typed. destruct i as [| |[]|]; simpl; try tauto.
  split; [intros H; inversion H; auto | intros [H1 H2]; now constructor].
Qed.

Lemma copies_typed_app l l' :
  copies_typed (l ++ l') <-> copies_typed l /\ copies_typed l'.
Proof. unfold copies_typed. rewrite copies_of_app. apply Forall_app. Qed.

Lemma split_var_copies_block_spec todo : forall done progress,
  copies_typed todo ->
  split_var_copies_block done todo progress
  = Done (done ++ flat_map expand todo, progress || has_copy todo).
Proof.
  induction todo as [|i todo IH]; intros done p T.
  - simpl. now rewrite app_nil_r, orb_false_r.
  - apply copies_typed_cons in T as [Ti T].
    destruct i as [| |[d s| | |]|]; cbn [split_var_copies_block];
      try (rewrite IH by assumption; simpl; now rewrite <- app_assoc).
    rewrite split_deref_copy_instr_emission by assumption.
    cbn [bind emit before_cursor]. rewrite IH by assumption.
    simpl. now rewrite <- app_assoc, orb_true_r.
Qed.

Lemma split_var_copies_block_typed todo : forall done progress r,
  split_var_copies_block done todo progress = Done r -> copies_typed todo.
Proof.
  induction todo as [|i todo IH]; intros done p r H; [constructor|].
  apply copies_typed_cons.
  destruct i as [| |[d s| | |]|]; cbn [split_var_copies_block] in H;
    try (split; [exact I | eapply IH; eassumption]).
  apply bind_Done in H as (b' & Hb & H).
  split; [eapply split_deref_copy_instr_Done; eassumption | eapply IH; eassumption].
Qed.

Lemma split_var_copies_blocks_spec blocks : forall progress,
  Forall copies_typed blocks ->
  split_var_copies_blocks blocks progress
  = Done (map (flat_map expand) blocks, progress || existsb has_copy blocks).
Proof.
  induction blocks as [|bl blocks IH]; intros p T.
  - simpl. now rewrite orb_false_r.
  - inversion T as [|? ? T1 T2]; subst.
    cbn [split_var_copies_blocks].
    rewrite split_var_copies_block_spec by assumption. cbn [bind app].
    rewrite IH by assumption. cbn [bind map existsb].
    now rewrite orb_assoc.
Qed.

Lemma split_var_copies_blocks_typed blocks : forall progress r,
  split_var_copies_blocks blocks progress = Done r -> Forall copies_typed blocks.
Proof.
  induction blocks as [|bl blocks IH]; intros p r H; [constructor|].
  cbn [split_var_copies_blocks] in H.
  apply bind_Done in H as ([bl' p1] & H1 & H).
  apply bind_Done in H as ([rest' p2] & H2 & H).
  constructor; [eapply split_var_copies_block_typed | eapply IH]; eassumption.
Qed.

Lemma split_var_copies_impl_spec NDEBUG i :
  impl_typed i ->
  split_var_copies_impl NDEBUG i = Done (impl_after NDEBUG i, impl_has_copy i).
Proof.
  intros T. unfold split_var_copies_impl.
  rewrite split_var_copies_blocks_spec by exact T.
  cbn [bind orb]. unfold impl_after, nir_metadata_preserve.
  fold (impl_has_copy i). destruct (impl_has_copy i), NDEBUG; reflexivity.
Qed.

Lemma split_var_copies_impl_typed NDEBUG i r :
  split_var_copies_impl NDEBUG i = Done r -> impl_typed i.
Proof.
  unfold split_var_copies_impl. intros H.
  apply bind_Done in H as ([bs p] & H & _).
  eapply split_var_copies_blocks_typed; eassumption.
Qed.

Lemma split_var_copies_functions_spec NDEBUG fs : forall progress,
  shader_typed fs ->
  split_var_copies_functions NDEBUG fs progress
  = Done (map (function_after NDEBUG) fs,
          existsb function_has_copy fs || progress).
Proof.
  induction fs as [|f fs IH]; intros p T; [reflexivity|].
  inversion T as [|? ? T1 T2]; subst.
  cbn [split_var_copies_functions map existsb].
  unfold function_typed in T1.
  unfold function_after at 1, function_has_copy at 1.
  destruct (impl f) as [i|] eqn:E.
  - rewrite split_var_copies_impl_spec by assumption. cbn [bind].
    rewrite IH by assumption. cbn [bind].
    apply f_equal, f_equal.
    destruct (impl_has_copy i), (existsb function_has_copy fs), p; reflexivity.
  - cbn [bind]. rewrite IH by assumption. reflexivity.
Qed.

Lemma split_var_copies_functions_typed NDEBUG fs : forall progress r,
  split_var_copies_functions NDEBUG fs progress = Done r -> shader_typed fs.
Proof.
  induction fs as [|f fs IH]; intros p r H; [constructor|].
  cbn [split_var_copies_functions] in H.
  apply bind_Done in H as ([f' p1] & H1 & H).
  apply bind_Done in H as ([rest' p2] & H2 & _).
  constructor; [|eapply IH; eassumption].
  unfold function_typed. destruct (impl f) as [i|]; [|exact I].
  apply bind_Done in H1 as (r1 & H1 & _).
  eapply split_var_copies_impl_typed; eassumption.
Qed.

(** What the pass emits is left alone by a second run. *)
Lemma expand_typed l :
  copies_typed l ->
  copies_typed (flat_map expand l) /\
  Forall leaf_copy (copies_of (flat_map expand l)) /\
  flat_map expand (flat_map expand l) = flat_map expand l.
Proof.
  induction l as [|i l IH]; intros T.
  - repeat split; constructor.
  - apply copies_typed_cons in T as [Ti T].
    destruct (IH T) as (IH1 & IH2 & IH3).
    cbn [flat_map]. rewrite copies_typed_app, copies_of_app, flat_map_app, IH3.
    destruct i as [| |[d s| | |]|];
      try (repeat split; [constructor | assumption | assumption]).
    pose proof (emission_copies_leaf (type s) d s Ti eq_refl) as L.
    cbn [expand]. rewrite emission_fixed by auto.
    repeat split; try assumption.
    + eapply Forall_impl; [|exact L]. now intros c [_ E].
    + apply Forall_app. split; [|assumption].
      eapply Forall_impl; [|exact L]. now intros c [E _].
Qed.

Lemma expand_no_copy l : has_copy l = false -> flat_map expand l = l.
Proof.
  induction l as [|i l IH]; [reflexivity|].
  simpl. intros H. apply orb_false_iff in H as [Hi H].
  rewrite (IH H). destruct i as [| |[]|]; try reflexivity; discriminate.
Qed.

Lemma impl_after_typed NDEBUG i : impl_typed i -> impl_typed (impl_after NDEBUG i).
Proof.
  unfold impl_typed, impl_after. cbn [body]. intros T.
  apply Forall_map. eapply Forall_impl; [|exact T].
  intros l Tl. now apply expand_typed.
Qed.

Lemma impl_after_no_copy NDEBUG i :
  impl_has_copy i = false -> impl_has_copy (impl_after NDEBUG i) = false.
Proof.
  unfold impl_has_copy, impl_after. cbn [body].
  induction (body i) as [|l ls IH]; [reflexivity|].
  simpl. intros H. apply orb_false_iff in H as [Hl H].
  now rewrite (expand_no_copy _ Hl), Hl, IH.
Qed.

Lemma metadata_idempotent (v : Z) (h1 h2 nd : bool) :
  (h1 = false -> h2 = false) ->
  let keep := Z.lor nir_metadata_block_index nir_metadata_dominance in
  let reset := Z.lnot nir_metadata_not_properly_reset in
  let v1 := if h1 then Z.land v keep
            else if nd then v else Z.land v reset in
  (if h2 then Z.land v1 keep else if nd then v1 else Z.land v1 reset) = v1.
Proof.
  intros H. destruct h1.
  - destruct h2, nd; cbn zeta; rewrite <- ?Z.land_assoc; reflexivity.
  - rewrite (H eq_refl). destruct nd; cbn zeta; [reflexivity|].
    now rewrite <- Z.land_assoc, Z.land_diag.
Qed.

Lemma impl_after_idempotent NDEBUG i :
  impl_typed i -> impl_after NDEBUG (impl_after NDEBUG i) = impl_after NDEBUG i.
Proof.
  intros T.
  assert (B : map (flat_map expand) (map (flat_map expand) (body i))
              = map (flat_map expand) (body i)).
  { rewrite map_map. apply map_ext_in. intros l Hl.
    unfold impl_typed in T. rewrite Forall_forall in T.
    now apply expand_typed, T. }
  pose proof (metadata_idempotent (valid_metadata i) _ _ NDEBUG
                (impl_after_no_copy NDEBUG i)) as M.
  exact (f_equal2 (fun b v => {| body := b; valid_metadata := v |}) B M).
Qed.

Lemma function_after_idempotent NDEBUG f :
  function_typed f ->
  function_after NDEBUG (function_after NDEBUG f) = function_after NDEBUG f.
Proof.
  unfold function_typed, function_after. destruct (impl f) as [i|] eqn:E.
  - intros T. cbn [impl name]. now rewrite impl_after_idempotent.
  - now rewrite E.
Qed.

Lemma function_after_typed NDEBUG f :
  function_typed f -> function_typed (function_after NDEBUG f).
Proof.
  unfold function_typed, function_after. destruct (impl f) as [i|] eqn:E.
  - cbn [impl]. apply impl_after_typed.
  - now rewrite E.
Qed.

Lemma shader_has_copy sh :
  existsb function_has_copy sh = has_copy (shader_instrs sh).
Proof.
  unfold shader_instrs.
  induction sh as [|f sh IH]; [reflexivity|].
  cbn [existsb flat_map]. rewrite has_copy_app, IH. f_equal.
  unfold function_has_copy. destruct (impl f) as [i|]; [|reflexivity].
  unfold impl_has_copy, impl_instrs.
  induction (body i) as [|l ls IHl]; [reflexivity|].
  simpl. now rewrite has_copy_app, IHl.
Qed.

Lemma emission_steps t : forall d s,
  forallb emitted_step (split_emission t d s) = true.
Proof.
  induction t using glsl_type_nested_ind; intros d s; try reflexivity.
  - simpl. apply IHt.
  - rewrite split_emission_Struct. generalize 0 as i.
    induction H as [|f fs Hf _ IH]; intros i; [reflexivity|].
    rewrite fields_emission_cons. cbn [forallb emitted_step andb].
    now rewrite forallb_app, Hf, IH.
Qed.

Lemma impl_after_copies NDEBUG i :
  impl_typed i ->
  Forall leaf_copy (copies_of (impl_instrs (impl_after NDEBUG i))).
Proof.
  unfold impl_typed, impl_instrs, impl_after. cbn [body].
  induction 1 as [|l ls Tl _ IH]; [constructor|].
  cbn [map List.concat]. rewrite copies_of_app. apply Forall_app.
  split; [now apply expand_typed | exact IH].
Qed.

(** Well-formed chains stay well formed. *)
Lemma fields_emission_wf d s fs :
  type d = Struct fs -> type s = Struct fs -> chain_wf d -> chain_wf s ->
  Forall (fun f => forall d s, type d = f -> type s = f ->
                               chain_wf d -> chain_wf s ->
                               copies_wf (split_emission f d s)) fs ->
  forall rest done,
    fs = done ++ rest ->
    copies_wf (fields_emission d s rest (List.length done)).
Proof.
  intros Hd Hs Wd Ws IH rest.
  induction rest as [|f rest IHrest]; intros done E; [constructor|].
  assert (Hnth : nth_error fs (List.length done) = Some f).
  { rewrite E, nth_error_app2, Nat.sub_diag by lia. reflexivity. }
  assert (Hin : In f fs) by (rewrite E; apply in_elt).
  rewrite fields_emission_cons. unfold copies_wf. cbn [copies_of].
  rewrite copies_of_app. apply Forall_app. split.
  - rewrite Forall_forall in IH. apply (IH f Hin); try reflexivity.
    + unfold chain_wf in *. cbn [resolve type]. now rewrite Wd, Hd.
    + unfold chain_wf in *. cbn [resolve type]. now rewrite Ws, Hs.
  - replace (S (List.length done)) with (List.length (done ++ [f]))
      by (rewrite length_app; simpl; lia).
    apply IHrest. now rewrite <- app_assoc.
Qed.

Lemma emission_wf t : forall d s,
  type d = t -> type s = t -> chain_wf d -> chain_wf s ->
  copies_wf (split_emission t d s).
Proof.
  induction t using glsl_type_nested_ind; intros d s Hd Hs Wd Ws.
  - repeat constructor; assumption.
  - repeat constructor; assumption.
  - repeat constructor; unfold chain_wf in *; cbn [fst snd resolve type].
    + now rewrite Wd, Hd.
    + now rewrite Ws, Hs.
  - cbn [split_emission]. unfold copies_wf. cbn [copies_of].
    apply IHt; try reflexivity; unfold chain_wf in *; cbn [resolve type].
    + now rewrite Wd, Hd.
    + now rewrite Ws, Hs.
  - rewrite split_emission_Struct.
    exact (fields_emission_wf d s fs Hd Hs Wd Ws H fs [] eq_refl).
Qed.

Lemma expand_wf l :
  copies_typed l -> copies_wf l -> copies_wf (flat_map expand l).
Proof.
  unfold copies_wf.
  induction l as [|i l IH]; intros T W; [constructor|].
  apply copies_typed_cons in T as [Ti T].
  cbn [flat_map]. rewrite copies_of_app. apply Forall_app.
  destruct i as [| |[d s| | |]|]; cbn [copies_of expand] in *;
    try (split; [constructor | now apply IH]).
  inversion W as [|? ? [Wd Ws] W']; subst. split; [|now apply IH].
  now apply emission_wf.
Qed.

Lemma impl_after_wf NDEBUG i :
  impl_typed i -> impl_wf i ->
  Forall copy_wf (copies_of (impl_instrs (impl_after NDEBUG i))).
Proof.
  unfold impl_typed, impl_wf, impl_instrs, impl_after. cbn [body].
  induction 1 as [|l ls Tl _ IH]; intros W; [constructor|].
  inversion W as [|? ? Wl W']; subst.
  cbn [map List.concat]. rewrite copies_of_app. apply Forall_app.
  split; [now apply expand_wf | now apply IH].
Qed.

(** C1. After the copy-splitting pass has run over a function body whose
    copies are between chains of equal type, every copy left in the body
    has a destination chain and a source chain that resolve to a vector
    or scalar type or end in a wildcard step.  The first alternative is
    the one that holds ([impl_after_copies]); and where the chains of the
    copies were well formed before the pass, the steps of those left
    after it resolve to a vector or scalar type. *)
Theorem split_var_copies_leaf_invariant (NDEBUG : bool) (i : nir_function_impl) :
  impl_typed i ->
  exists i' progress,
    split_var_copies_impl NDEBUG i = Done (i', progress)
    /\ Forall (fun c => split_chain (fst c) /\ split_chain (snd c))
              (copies_of (impl_instrs i'))
    /\ (impl_wf i ->
        Forall (fun c => resolves_to_leaf (fst c) /\ resolves_to_leaf (snd c))
               (copies_of (impl_instrs i'))).
Proof.
  intros T. exists (impl_after NDEBUG i), (impl_has_copy i).
  split; [now apply split_var_copies_impl_spec|].
  pose proof (impl_after_copies NDEBUG i T) as L. split.
  - eapply Forall_impl; [|exact L].
    intros c [Hd Hs]. split; left; assumption.
  - intros W. pose proof (impl_after_wf NDEBUG i T W) as R.
    rewrite Forall_forall in *. intros c Hc.
    destruct (L c Hc) as [Ld Ls]. destruct (R c Hc) as [Rd Rs].
    split; eexists; split; eassumption.
Qed.

Lemma split_var_copies_leaf_invariant_witness :
  exists i' progress,
    split_var_copies_impl false struct_copy_impl = Done (i', progress)
    /\ Forall (fun c => split_chain (fst c) /\ split_chain (snd c))
              (copies_of (impl_instrs i'))
    /\ (impl_wf struct_copy_impl ->
        Forall (fun c => resolves_to_leaf (fst c) /\ resolves_to_leaf (snd c))
               (copies_of (impl_instrs i'))).
Proof.
  apply (split_var_copies_leaf_invariant false struct_copy_impl).
  repeat constructor.
Defined.

(** C2. The recursion of the split follows the shared type of the pair:
    it emits what [split_emission] lists (one copy at a leaf, the fields
    of a struct in declaration order, one wildcard step for an array or
    a matrix), so the number of copies is the number of leaves of the
    type with an array counted as its element, whatever its length, and
    no step at a concrete index is built. *)
Theorem split_deref_copy_instr_shape (b : nir_builder) (dst src : nir_deref_instr) :
  type dst = type src ->
  split_deref_copy_instr b dst src
  = Done (emit b (split_emission (type src) dst src))
  /\ List.length (copies_of (split_emission (type src) dst src))
     = leaf_count (type src)
  /\ forallb emitted_step (split_emission (type src) dst src) = true.
Proof.
  intros E. split; [now apply split_deref_copy_instr_emission|].
  split; [apply emission_copy_count | apply emission_steps].
Qed.

(** For [struct { vec3 a; float b[4]; }] the split leaves exactly the two
    copies [dst.a = src.a] and [dst.b[*] = src.b[*]]. *)
Lemma split_deref_copy_instr_shape_witness :
  (split_deref_copy_instr empty_builder sample_dst sample_src
   = Done (emit empty_builder
             [nir_instr_type_deref dst_a; nir_instr_type_deref src_a;
              copy_instr dst_a src_a;
              nir_instr_type_deref dst_b; nir_instr_type_deref src_b;
              nir_instr_type_deref dst_b_all; nir_instr_type_deref src_b_all;
              copy_instr dst_b_all src_b_all]))
  /\ copies_of (split_emission sample_struct sample_dst sample_src)
     = [(dst_a, src_a); (dst_b_all, src_b_all)]
  /\ leaf_count sample_struct = 2.
Proof.
  destruct (split_deref_copy_instr_shape empty_builder sample_dst sample_src
              eq_refl) as (H & _ & _).
  split; [exact H|]. split; reflexivity.
Defined.

(** C10. When the chains of the root copy have equal types, no assertion
    of the recursion fails and the recursion comes to an end: the split
    returns, and returns the same with any fuel above the nesting height
    of the type. *)
Theorem split_deref_copy_instr_total (b : nir_builder) (dst src : nir_deref_instr) :
  type dst = type src ->
  exists b',
    split_deref_copy_instr b dst src = Done b' /\
    forall fuel, height (type src) < fuel ->
                 split_deref_copy_instr_fuel fuel b dst src = Done b'.
Proof.
  intros E. exists (emit b (split_emission (type src) dst src)).
  split; [now apply split_deref_copy_instr_emission|].
  intros fuel Hf. now apply split_fuel_emission.
Qed.

Lemma split_deref_copy_instr_total_witness :
  exists b',
    split_deref_copy_instr empty_builder sample_dst sample_src = Done b' /\
    forall fuel, height (type sample_src) < fuel ->
                 split_deref_copy_instr_fuel fuel empty_builder sample_dst sample_src
                 = Done b'.
Proof.
  apply (split_deref_copy_instr_total empty_builder sample_dst sample_src).
  reflexivity.
Defined.

(** C6, as the code has it.  A second run of the pass over its own output
    leaves the program as it is, and reports progress exactly when that
    output holds a copy; the first run reports progress exactly when its
    input holds one. *)
Theorem split_var_copies_second_run (NDEBUG : bool) (sh sh1 : nir_shader)
    (p1 : bool) :
  nir_split_var_copies NDEBUG sh = Done (sh1, p1) ->
  nir_split_var_copies NDEBUG sh1 = Done (sh1, has_copy (shader_instrs sh1))
  /\ p1 = has_copy (shader_instrs sh).
Proof.
  unfold nir_split_var_copies. intros H.
  pose proof (split_var_copies_functions_typed _ _ _ _ H) as T.
  rewrite split_var_copies_functions_spec in H by exact T.
  injection H as <- <-.
  assert (T1 : shader_typed (map (function_after NDEBUG) sh)).
  { apply Forall_map. eapply Forall_impl; [|exact T].
    intros f. apply function_after_typed. }
  rewrite split_var_copies_functions_spec by exact T1.
  rewrite !orb_false_r, !shader_has_copy. split; [|reflexivity].
  do 2 f_equal. rewrite map_map. apply map_ext_in.
  intros f Hf. apply function_after_idempotent.
  unfold shader_typed in T. rewrite Forall_forall in T. now apply T.
Qed.

Lemma split_var_copies_second_run_witness :
  nir_split_var_copies false scalar_copy_shader = Done (scalar_copy_shader, true)
  /\ nir_split_var_copies false scalar_copy_shader
     = Done (scalar_copy_shader, has_copy (shader_instrs scalar_copy_shader)).
Proof.
  split; [reflexivity|].
  apply (split_var_copies_second_run false scalar_copy_shader
           scalar_copy_shader true).
  reflexivity.
Defined.

(** C6, as stated, fails: the pass run on the one-copy shader returns that
    shader, and run again on it reports progress again. *)
Lemma split_var_copies_second_run_progress :
  exists out,
    nir_split_var_copies false scalar_copy_shader = Done (out, true)
    /\ nir_split_var_copies false out = Done (out, true).
Proof. exists scalar_copy_shader. split; reflexivity. Qed.

(* ================================================================== *)
(** ** Subroutine lowering *)

Import Ir.

Lemma clone_mono r : forall m, m <= snd (clone m r).
Proof.
  induction r; intros m; simpl.
  - lia.
  - lia.
  - destruct (clone (S m) r) as [i' m2] eqn:E. simpl.
    specialize (IHr (S m)). rewrite E in IHr. simpl in IHr. lia.
  - destruct (clone m r) as [a' m1] eqn:E. simpl.
    specialize (IHr m). rewrite E in IHr. simpl in IHr. lia.
  - destruct (clone m r1) as [a' m1] eqn:E1.
    destruct (clone m1 r2) as [b' m2] eqn:E2. simpl.
    specialize (IHr1 m). rewrite E1 in IHr1.
    specialize (IHr2 m1). rewrite E2 in IHr2. simpl in *. lia.
Qed.

(** A clone is the expression it copies, node for node. *)
Lemma clone_erase r : forall m, erase (fst (clone m r)) = erase r.
Proof.
  induction r; intros m; simpl.
  - reflexivity.
  - reflexivity.
  - destruct (clone (S m) r) as [i' m2] eqn:E. simpl.
    specialize (IHr (S m)). rewrite E in IHr. simpl in IHr. now rewrite IHr.
  - destruct (clone m r) as [a' m1] eqn:E. simpl.
    specialize (IHr m). rewrite E in IHr. simpl in IHr. now rewrite IHr.
  - destruct (clone m r1) as [a' m1] eqn:E1.
    destruct (clone m1 r2) as [b' m2] eqn:E2. simpl.
    specialize (IHr1 m). rewrite E1 in IHr1.
    specialize (IHr2 m1). rewrite E2 in IHr2. simpl in *.
    now rewrite IHr1, IHr2.
Qed.

(** The reference [var] of an iteration reads what the call is bound
    to: the variable, or its element at a clone of the index. *)
Lemma bound_reference ir sv m r m' :
  match array_idx ir with
  | Some idx => let (idx', m0) := clone m idx in new_ir_dereference_array m0 sv idx'
  | None => let (d, m0) := new_ir_dereference_variable m sv in (ir_deref_variable d, m0)
  end = (r, m') ->
  bound_value_reference ir sv r /\ m <= m'.
Proof.
  unfold bound_value_reference.
  destruct (array_idx ir) as [idx|].
  - pose proof (clone_mono idx m) as M.
    pose proof (clone_erase idx m) as C.
    destruct (clone m idx) as [idx' m0]. simpl in M, C.
    unfold new_ir_dereference_array, new_ir_dereference_variable, ralloc.
    simpl. intros H. injection H as <- <-. split; [|lia].
    eexists. exists idx'. split; [reflexivity|]. split; [reflexivity | exact C].
  - unfold new_ir_dereference_variable, ralloc. simpl.
    intros H. injection H as <- <-. split; [|lia].
    eexists. split; reflexivity.
Qed.

Lemma eligible_S state sv n :
  eligible state sv (S n)
  = eligible state sv n ++ (if eligible_at state sv n then [n] else []).
Proof.
  unfold eligible. rewrite seq_S, filter_app. simpl.
  unfold eligible_at. destruct (nth_error (subroutines state) n) as [fn|];
    [destruct (is_compat sv fn)|]; reflexivity.
Qed.

Lemma eligible_lt state sv n s : In s (eligible state sv n) -> s < n.
Proof.
  unfold eligible. rewrite filter_In, in_seq. lia.
Qed.

Lemma eligible_In state sv n s :
  In s (eligible state sv n) <-> s < n /\ eligible_at state sv s = true.
Proof.
  unfold eligible, eligible_at. rewrite filter_In, in_seq.
  split; intros [H1 H2]; split; try lia; exact H2.
Qed.

(** What one iteration of the loop does. *)
Lemma ladder_iteration_Done state ir sv s st st' :
  ladder_iteration state ir sv s st = Done st' ->
  mem st <= mem st' /\
  if eligible_at state sv s then
    exists b,
      index b = s /\ rung_ok state ir sv b
      /\ return_deref (call b) = cur_return_deref st
      /\ (forall bs, last_branch st = nest bs -> last_branch st' = nest (b :: bs))
      /\ (if 0 <? s
          then exists d, cur_return_deref st' = Some d
                         /\ fresh_clone (mem st) (mem st') (cur_return_deref st) d
          else cur_return_deref st' = cur_return_deref st)
  else last_branch st' = last_branch st
       /\ cur_return_deref st' = cur_return_deref st.
Proof.
  unfold ladder_iteration, eligible_at, new_ir_constant, ralloc. cbn [snd].
  destruct (nth_error (subroutines state) s) as [fn|] eqn:Efn; [|discriminate].
  destruct (is_compat sv fn) eqn:Ec; cbn [negb].
  2:{ intros H. injection H as <-. simpl. repeat split. lia. }
  destruct (match array_idx ir with Some _ => _ | None => _ end)
    as [r m2] eqn:Er.
  apply bound_reference in Er as [Hr Hm2].
  unfold new_ir_call, subr_to_int, equal, if_tree, ralloc. cbn [snd].
  set (b := {| index := s;
               test := ir_expression2 (Scalar GLSL_TYPE_BOOL) ir_binop_equal
                         (ir_expression1 (Scalar GLSL_TYPE_INT)
                            ir_unop_subroutine_to_int r)
                         (ir_constant (Scalar GLSL_TYPE_INT) (Z.of_nat s));
               call := {| callee := exact_matching_signature fn (actual_parameters ir);
                          return_deref := cur_return_deref st;
                          actual_parameters := actual_parameters ir;
                          sub_var := None; array_idx := None |} |}).
  assert (Hb : rung_ok state ir sv b).
  { split.
    - exists r. split; [exact Hr | reflexivity].
    - exists fn. repeat split; assumption || reflexivity. }
  destruct (0 <? s) eqn:Es.
  - destruct (cur_return_deref st) as [d|] eqn:Ed; [|discriminate].
    unfold clone_dereference_variable, new_ir_dereference_variable, ralloc.
    intros H. injection H as <-. cbn [mem last_branch cur_return_deref].
    split; [lia|]. exists b.
    split; [reflexivity|]. split; [exact Hb|]. split; [reflexivity|].
    split; [intros bs ->; reflexivity|].
    eexists. split; [reflexivity|]. split; [cbn [addr]; lia|].
    exists d. split; reflexivity.
  - intros H. injection H as <-. cbn [mem last_branch cur_return_deref].
    split; [lia|]. exists b.
    split; [reflexivity|]. split; [exact Hb|]. split; [reflexivity|].
    split; [intros bs ->; reflexivity | reflexivity].
Qed.

Lemma fresh_clone_widen lo lo' hi hi' orig d :
  lo' <= lo -> hi <= hi' -> fresh_clone lo hi orig d -> fresh_clone lo' hi' orig d.
Proof. unfold fresh_clone. intros ? ? [? ?]. split; [lia | assumption]. Qed.

(** What the whole loop does, from any state it may be entered in. *)
Lemma ladder_loop_Done state ir sv : forall n st st' bs,
  last_branch st = nest bs ->
  ladder_loop state ir sv n st = Done st' ->
  exists new clones,
    last_branch st' = nest (new ++ bs)
    /\ map index new = eligible state sv n
    /\ Forall (rung_ok state ir sv) new
    /\ mem st <= mem st'
    /\ (new = [] -> clones = [])
    /\ (new <> [] ->
        destinations new = map Some clones ++ [cur_return_deref st])
    /\ Forall (fresh_clone (mem st) (mem st') (cur_return_deref st)) clones
    /\ NoDup (map addr clones).
Proof.
  induction n as [|s IH]; intros st st' bs Hbs H.
  - injection H as <-. exists [], []. simpl.
    repeat split; auto; try constructor. congruence.
  - cbn [ladder_loop] in H. apply bind_Done in H as (st1 & Hit & Hloop).
    apply ladder_iteration_Done in Hit as [Hm Hit].
    rewrite eligible_S. destruct (eligible_at state sv s) eqn:El.
    + destruct Hit as (b & Hidx & Hok & Hrd & Hlb & Hcur).
      destruct (IH st1 st' (b :: bs) (Hlb bs Hbs) Hloop)
        as (new' & clones' & L & I & R & M & Cn & Cd & Cf & Cnd).
      destruct new' as [|b' new''].
      * exists [b], []. simpl in *. rewrite <- I, Hidx, Hrd.
        repeat split; auto; try constructor; try assumption; try lia.
      * assert (Hs : (0 <? s) = true).
        { apply Nat.ltb_lt.
          assert (In (index b') (eligible state sv s))
            by (rewrite <- I; left; reflexivity).
          apply eligible_lt in H. lia. }
        rewrite Hs in Hcur. destruct Hcur as (d1 & Hd1 & Hf1).
        specialize (Cd ltac:(discriminate)).
        exists ((b' :: new'') ++ [b]), (clones' ++ [d1]).
        split; [now rewrite <- app_assoc|].
        split; [rewrite map_app, I; simpl; now rewrite Hidx|].
        split; [apply Forall_app; split; [assumption | now constructor]|].
        split; [lia|].
        split; [intros C; destruct (app_cons_not_nil _ _ _ (eq_sym C))|].
        split.
        { intros _. unfold destinations in *.
          rewrite map_app, Cd, Hd1, map_app. simpl.
          now rewrite Hrd. }
        split.
        { apply Forall_app. split.
          - eapply Forall_impl; [|exact Cf]. intros d [Hr (d0 & E0 & Hv)].
            destruct Hf1 as [Hr1 (d00 & E00 & Hv1)].
            rewrite Hd1 in E0. injection E0 as <-.
            split; [lia|]. exists d00. split; [assumption | congruence].
          - constructor; [|constructor].
            eapply fresh_clone_widen; [| |exact Hf1]; lia. }
        rewrite map_app. apply NoDup_app; [assumption | repeat constructor; auto |].
        intros a Ha [<-|[]]. apply in_map_iff in Ha as (d & Ea & Hd).
        rewrite Forall_forall in Cf. destruct (Cf d Hd) as [Hr _].
        destruct Hf1 as [Hr1 _]. lia.
    + destruct Hit as [Hlb Hcur].
      destruct (IH st1 st' bs ltac:(congruence) Hloop)
        as (new' & clones' & L & I & R & M & Cn & Cd & Cf & Cnd).
      exists new', clones'. rewrite app_nil_r, <- Hcur.
      repeat split; try assumption; try lia.
      eapply Forall_impl; [|exact Cf]. intros d.
      apply fresh_clone_widen; lia.
Qed.

(** What [visit_leave] does to an indirect call, when it returns. *)
Lemma visit_leave_Done v m prev ir sv v' m' prev' :
  sub_var ir = Some sv ->
  visit_leave v m prev ir = Done (v', m', prev') ->
  exists bs clones,
    v' = v /\ m <= m'
    /\ prev' = prev ++ splice (nest bs)
    /\ map index bs = eligible (state v) sv (num_subroutines (state v))
    /\ Forall (rung_ok (state v) ir sv) bs
    /\ (bs = [] -> clones = [])
    /\ (bs <> [] -> destinations bs = map Some clones ++ [return_deref ir])
    /\ Forall (fresh_clone m m' (return_deref ir)) clones
    /\ NoDup (map addr clones).
Proof.
  intros Hsv H. unfold visit_leave in H. rewrite Hsv in H.
  apply bind_Done in H as (st & Hloop & H). injection H as <- <- <-.
  apply (ladder_loop_Done _ _ _ _ _ _ []) in Hloop; [|reflexivity].
  destruct Hloop as (bs & clones & L & I & R & M & Cn & Cd & Cf & Cnd).
  rewrite app_nil_r in L. cbn [mem cur_return_deref] in *.
  exists bs, clones. rewrite L.
  repeat split; try assumption.
  destruct (nest bs); simpl; now rewrite ?app_nil_r.
Qed.

Lemma ladder_iteration_skip state ir sv s st :
  s < num_subroutines state -> eligible_at state sv s = false ->
  ladder_iteration state ir sv s st
  = Done {| mem := S (mem st); last_branch := last_branch st;
            cur_return_deref := cur_return_deref st |}.
Proof.
  unfold ladder_iteration, eligible_at, num_subroutines. intros Hs.
  apply nth_error_Some in Hs.
  destruct (nth_error (subroutines state) s) as [fn|]; [|contradiction].
  cbn. now intros ->.
Qed.


Lemma ladder_iteration_total state ir sv s st :
  s < num_subroutines state ->
  (cur_return_deref st <> None \/ s = 0) ->
  exists st', ladder_iteration state ir sv s st = Done st'.
Proof.
  intros Hs Hc. destruct (eligible_at state sv s) eqn:He.
  2:{ rewrite ladder_iteration_skip by assumption. eauto. }
  unfold ladder_iteration, eligible_at in *. apply nth_error_Some in Hs.
  destruct (nth_error (subroutines state) s) as [fn|]; [|contradiction].
  rewrite He. unfold new_ir_constant, ralloc. cbn [snd negb].
  destruct (match array_idx ir with Some _ => _ | None => _ end) as [r m2].
  unfold new_ir_call, subr_to_int, equal, if_tree, ralloc. cbn [snd].
  destruct (0 <? s) eqn:E0.
  - destruct (cur_return_deref st) as [d|].
    + unfold clone_dereference_variable, new_ir_dereference_variable, ralloc.
      eauto.
    + destruct Hc as [Hc| ->]; [congruence | discriminate].
  - eauto.
Qed.

(** The loop returns when there is a return destination to clone, and
    when no candidate above index 0 is eligible. *)
Lemma ladder_loop_total state ir sv : forall n st,
  n <= num_subroutines state ->
  (cur_return_deref st <> None \/
   forall s, In s (eligible state sv n) -> s = 0) ->
  exists st', ladder_loop state ir sv n st = Done st'.
Proof.
  induction n as [|s IH]; intros st Hn Hc; [simpl; eauto|].
  cbn [ladder_loop].
  assert (Hit : cur_return_deref st <> None
                \/ (eligible_at state sv s = true -> s = 0)).
  { destruct Hc as [Hc|Hc]; [now left | right]. intros He.
    apply Hc, eligible_In. split; [lia | assumption]. }
  destruct (eligible_at state sv s) eqn:He.
  - destruct (ladder_iteration_total state ir sv s st) as [st1 H1]; [lia | |].
    { destruct Hit as [?| H0]; [now left | right; now apply H0]. }
    rewrite H1. cbn [bind]. apply IH; [lia|].
    pose proof (ladder_iteration_Done _ _ _ _ _ _ H1) as [_ D].
    rewrite He in D. destruct D as (b & _ & _ & _ & _ & D).
    destruct (0 <? s) eqn:E0.
    + left. destruct D as (d & -> & _). discriminate.
    + apply Nat.ltb_ge in E0. right. intros s' Hs'.
      apply eligible_lt in Hs'. lia.
  - rewrite ladder_iteration_skip by (assumption || lia). cbn [bind].
    apply IH; [lia|]. cbn [cur_return_deref].
    destruct Hc as [Hc|Hc]; [now left | right]. intros s' Hs'.
    apply Hc. rewrite eligible_S. apply in_or_app. now left.
Qed.


(** The value of an expression does not depend on where its nodes are
    allocated. *)
Lemma eval_erase rho r : eval rho (erase r) = eval rho r.
Proof.
  induction r as [t k|d|t a i IH|t op a IH|t op a IHa b IHb]; cbn [erase eval var].
  - reflexivity.
  - reflexivity.
  - now rewrite IH.
  - destruct op; [exact IH | reflexivity | now rewrite IH].
  - destruct op; [reflexivity | now rewrite IHa, IHb | now rewrite IHa, IHb].
Qed.

(** The test of a rung compares the bound value of the call, read from
    the variable or from the element the call indexes, with the index
    of the rung. *)
Lemma eval_index_test ir sv s cond rho bound :
  index_test ir sv s cond ->
  bound_value rho ir sv = Some bound ->
  eval rho cond = Some (if Z.eqb bound (Z.of_nat s) then 1 else 0)%Z.
Proof.
  intros (r & Hr & ->) Hv. cbn [eval].
  unfold bound_value_reference in Hr. unfold bound_value in Hv.
  destruct (array_idx ir) as [idx|].
  - destruct Hr as (d & idx' & -> & Hd & He). cbn [eval].
    assert (E : eval rho idx' = eval rho idx).
    { rewrite <- (eval_erase rho idx'), He. apply eval_erase. }
    rewrite E. destruct (eval rho idx) as [k|]; [|discriminate].
    injection Hv as <-. rewrite Hd. reflexivity.
  - destruct Hr as (d & -> & Hd). cbn [eval].
    injection Hv as <-. rewrite Hd. reflexivity.
Qed.

(** Running a ladder whose rungs test distinct indices: the rung of the
    bound value runs, alone. *)
Lemma run_ladder_nest ir sv rho bs :
  Forall (fun b => index_test ir sv (index b) (test b)) bs ->
  NoDup (map index bs) ->
  forall b, In b bs ->
    bound_value rho ir sv = Some (Z.of_nat (index b)) ->
    run_ladder rho (nest bs) = [call b].
Proof.
  induction bs as [|b0 bs IH]; intros T N b Hb Hv; [contradiction|].
  inversion T as [|? ? T0 T']; subst. inversion N as [|? ? N0 N']; subst.
  cbn [nest run_ladder executed_calls].
  rewrite (eval_index_test _ _ _ _ _ _ T0 Hv).
  destruct Hb as [->|Hb].
  - rewrite Z.eqb_refl. reflexivity.
  - assert (Hne : index b <> index b0).
    { intros E. apply N0. rewrite <- E. now apply in_map. }
    destruct (Z.eqb_spec (Z.of_nat (index b)) (Z.of_nat (index b0))) as [E|_];
      [apply Nat2Z.inj in E; contradiction|].
    specialize (IH T' N' b Hb Hv). unfold run_ladder in IH.
    destruct (nest bs) as [e|]; [|discriminate].
    cbn. rewrite app_nil_r. exact IH.
Qed.

(** A bound value outside the tested indices runs no rung. *)
Lemma run_ladder_miss ir sv rho bs bound :
  Forall (fun b => index_test ir sv (index b) (test b)) bs ->
  bound_value rho ir sv = Some bound ->
  ~ In bound (map (fun b => Z.of_nat (index b)) bs) ->
  run_ladder rho (nest bs) = [].
Proof.
  induction bs as [|b0 bs IH]; intros T Hv N; [reflexivity|].
  inversion T as [|? ? T0 T']; subst.
  cbn [nest run_ladder executed_calls].
  rewrite (eval_index_test _ _ _ _ _ _ T0 Hv).
  destruct (Z.eqb_spec bound (Z.of_nat (index b0))) as [E|_].
  - exfalso. apply N. left. now symmetry.
  - assert (H : run_ladder rho (nest bs) = []).
    { apply IH; [assumption | assumption |]. intros C. apply N. now right. }
    unfold run_ladder in H. destruct (nest bs) as [e|]; [|reflexivity].
    cbn. rewrite app_nil_r. exact H.
Qed.

Lemma eligible_NoDup state sv n : NoDup (eligible state sv n).
Proof. apply NoDup_filter, seq_NoDup. Qed.

(** *** The progress flag *)

(** The walk over a nested list is the walk over a list. *)
Lemma visit_list_fix l : forall v m prev,
  (fix visit_list (l : list ir_instruction)
       (v : lower_subroutine_visitor) (m : mem_ctx)
       (prev : list ir_instruction) {struct l} :=
     match l with
     | [] => Done (v, m, prev)
     | i :: next =>
         '(v', m', prev') <- visit v m prev i ;;
         visit_list next v' m' prev'
     end) l v m prev = visit_list_elements v m prev l.
Proof.
  induction l as [|i l IH]; intros v m prev; [reflexivity|].
  cbn [visit_list_elements].
  destruct (visit v m prev i) as [[[? ?] ?]| | |];
    cbn [bind]; [apply IH | reflexivity..].
Qed.

Lemma visit_if v m prev c th el :
  visit v m prev (ir_type_if c th el)
  = ('(v1, m1, th') <- visit_list_elements v m [] th ;;
     '(v2, m2, el') <- visit_list_elements v1 m1 [] el ;;
     Done (v2, m2, prev ++ [ir_type_if c th' el'])).
Proof.
  cbn [visit].
  rewrite visit_list_fix.
  destruct (visit_list_elements v m [] th) as [[[? ?] ?]| | |];
    cbn [bind]; [|reflexivity..].
  now rewrite visit_list_fix.
Qed.

Lemma visit_loop v m prev b :
  visit v m prev (ir_type_loop b)
  = ('(v1, m1, b') <- visit_list_elements v m [] b ;;
     Done (v1, m1, prev ++ [ir_type_loop b'])).
Proof.
  cbn [visit]. now rewrite visit_list_fix.
Qed.

Lemma visit_function v m prev f b :
  visit v m prev (ir_type_function f b)
  = ('(v1, m1, b') <- visit_list_elements v m [] b ;;
     Done (v1, m1, prev ++ [ir_type_function f b'])).
Proof.
  cbn [visit]. now rewrite visit_list_fix.
Qed.

Lemma visit_leave_keeps_visitor v m prev ir v' m' prev' :
  visit_leave v m prev ir = Done (v', m', prev') -> v' = v.
Proof.
  unfold visit_leave. destruct (sub_var ir).
  - intros H. apply bind_Done in H as (st & _ & H). now injection H.
  - intros H. now injection H.
Qed.

Lemma visit_list_elements_keeps_visitor l :
  Forall keeps_visitor l ->
  forall v m prev v' m' prev',
    visit_list_elements v m prev l = Done (v', m', prev') -> v' = v.
Proof.
  induction 1 as [|i l Hi _ IH]; intros v m prev v' m' prev' H.
  - now injection H.
  - cbn [visit_list_elements] in H.
    apply bind_Done in H as ([[v1 m1] p1] & H1 & H).
    apply Hi in H1. apply IH in H. congruence.
Qed.

Lemma visit_keeps_visitor i : keeps_visitor i.
Proof.
  induction i using ir_instruction_nested_ind;
    intros v m prev v' m' prev' Hv.
  - eapply visit_leave_keeps_visitor. exact Hv.
  - rewrite visit_if in Hv.
    apply bind_Done in Hv as ([[v1 m1] th'] & H1 & Hv).
    apply bind_Done in Hv as ([[v2 m2] el'] & H2 & Hv).
    injection Hv as <- <- <-.
    apply (visit_list_elements_keeps_visitor _ H) in H1.
    apply (visit_list_elements_keeps_visitor _ H0) in H2. congruence.
  - now injection Hv.
  - rewrite visit_loop in Hv.
    apply bind_Done in Hv as ([[v1 m1] b'] & H1 & Hv).
    injection Hv as <- <- <-.
    now apply (visit_list_elements_keeps_visitor _ H) in H1.
  - rewrite visit_function in Hv.
    apply bind_Done in Hv as ([[v1 m1] b'] & H1 & Hv).
    injection Hv as <- <- <-.
    now apply (visit_list_elements_keeps_visitor _ H) in H1.
Qed.

Lemma lower_subroutine_no_progress m instructions state instructions' p :
  lower_subroutine m instructions state = Done (instructions', p) -> p = false.
Proof.
  unfold lower_subroutine. intros H.
  apply bind_Done in H as ([[v' m'] l'] & H1 & H). injection H as <- <-.
  apply visit_list_elements_keeps_visitor in H1.
  - now rewrite H1.
  - apply Forall_forall. intros i _. apply visit_keeps_visitor.
Qed.

(** *** The ladder *)

(** C3, as the code has it.  The ladder that replaces an indirect call
    has exactly one rung for each registry index whose candidate
    declares the type of the bound variable with its arrays stripped.
    The test of each rung compares, for equality with the index of the
    rung, the bound value of the call: the integer held in the bound
    variable, or, for a call through an array of subroutine variables,
    in the element at a copy of the index expression of the call.  The
    rungs stand in ascending order of index from the outermost
    conditional inwards: the lowest eligible index is tested first, the
    highest, built first, is innermost.  In any store in which the bound
    value is an eligible index the call of its rung runs and no other;
    in any store in which it is another value no call runs. *)
Theorem visit_leave_ladder (v : lower_subroutine_visitor) (m : mem_ctx)
    (prev : list ir_instruction) (ir : ir_call) (sv : ir_variable)
    (v' : lower_subroutine_visitor) (m' : mem_ctx)
    (prev' : list ir_instruction) :
  sub_var ir = Some sv ->
  visit_leave v m prev ir = Done (v', m', prev') ->
  exists bs,
    prev' = prev ++ splice (nest bs)
    /\ map index bs = eligible (state v) sv (num_subroutines (state v))
    /\ Forall (rung_ok (state v) ir sv) bs
    /\ (forall rho b,
           In b bs ->
           bound_value rho ir sv = Some (Z.of_nat (index b)) ->
           run_ladder rho (nest bs) = [call b])
    /\ (forall rho bound,
           bound_value rho ir sv = Some bound ->
           ~ In bound (map Z.of_nat
                         (eligible (state v) sv (num_subroutines (state v)))) ->
           run_ladder rho (nest bs) = []).
Proof.
  intros Hsv H.
  destruct (visit_leave_Done _ _ _ _ _ _ _ _ Hsv H)
    as (bs & clones & _ & _ & Hp & I & R & _).
  assert (T : Forall (fun b => index_test ir sv (index b) (test b)) bs).
  { eapply Forall_impl; [|exact R]. now intros b [Hb _]. }
  exists bs. split; [exact Hp|]. split; [exact I|]. split; [exact R|]. split.
  - intros rho b Hb Hv.
    apply (run_ladder_nest ir sv rho bs T); [|exact Hb | exact Hv].
    rewrite I. apply eligible_NoDup.
  - intros rho bound Hv Hb.
    apply (run_ladder_miss ir sv rho bs bound T Hv).
    rewrite <- I, map_map in Hb. exact Hb.
Qed.

Lemma visit_leave_ladder_witness :
  exists v' m' prev',
    visit_leave (sample_visitor sample_state) 10 [assign_result] array_call
    = Done (v', m', prev')
    /\ exists bs,
      prev' = [assign_result] ++ splice (nest bs)
      /\ map index bs = [1; 3; 4]
      /\ Forall (rung_ok sample_state array_call selectors) bs
      /\ (forall rho b,
             In b bs ->
             bound_value rho array_call selectors = Some (Z.of_nat (index b)) ->
             run_ladder rho (nest bs) = [call b])
      /\ (forall rho bound,
             bound_value rho array_call selectors = Some bound ->
             ~ In bound [1%Z; 3%Z; 4%Z] ->
             run_ladder rho (nest bs) = []).
Proof.
  do 3 eexists. split; [reflexivity|].
  exact (visit_leave_ladder (sample_visitor sample_state) 10 [assign_result]
           array_call selectors _ _ _ eq_refl eq_refl).
Defined.

(** The ladder of [selectors[which](arg)] reads the element that the
    call names: in a store in which [which] is 1 and the elements 0 and
    1 hold 1 and 3, the run makes the call of candidate 3, though
    candidate 1 is eligible and is the index held in element 0. *)
Lemma run_ladder_reads_indexed_element :
  exists v' m' ladder c,
    visit_leave (sample_visitor sample_state) 10 [] array_call
    = Done (v', m', [ladder])
    /\ bound_value sample_store array_call selectors = Some 3%Z
    /\ executed_calls sample_store ladder = [c]
    /\ callee c = Some (sig "f3" [float]).
Proof.
  do 4 eexists. split; [reflexivity|]. split; [reflexivity|].
  split; reflexivity.
Qed.

(** C3, as stated, fails: with the candidates at indices 1, 3 and 4
    eligible, the outermost conditional of the ladder tests for 1, the
    lowest eligible index, not for 4, the highest. *)
Lemma visit_leave_outermost_test :
  exists v' m' ladder,
    visit_leave (sample_visitor sample_state) 10 [] sample_call
    = Done (v', m', [ladder])
    /\ eligible sample_state selector (num_subroutines sample_state) = [1; 3; 4]
    /\ outermost_test_constant ladder = Some 1%Z
    /\ outermost_test_constant ladder <> Some 4%Z.
Proof.
  do 3 eexists. split; [reflexivity|].
  split; [reflexivity|]. split; [reflexivity | discriminate].
Qed.



(** *** The lookup of the exact overload *)

(** What one iteration does, whatever the constructor of [ir_call]
    does: an eligible candidate is handed to the constructor, and when
    the constructor returns its call becomes the new outermost rung. *)
Lemma ladder_iteration_with_Done ir_call_new state ir sv s st st' :
  ladder_iteration_with ir_call_new state ir sv s st = Done st' ->
  if eligible_at state sv s then
    exists b,
      index b = s /\ rung_built ir_call_new state ir sv b
      /\ (forall bs, last_branch st = nest bs -> last_branch st' = nest (b :: bs))
  else last_branch st' = last_branch st.
Proof.
  unfold ladder_iteration_with, eligible_at, new_ir_constant, ralloc. cbn [snd].
  destruct (nth_error (subroutines state) s) as [fn|] eqn:Efn; [|discriminate].
  destruct (is_compat sv fn) eqn:Ec; cbn [negb].
  2:{ intros H. injection H as <-. reflexivity. }
  destruct (match array_idx ir with Some _ => _ | None => _ end)
    as [r m2] eqn:Er.
  apply bound_reference in Er as [Hr _].
  intros H. apply bind_Done in H as ([c m3] & Hc & H).
  unfold subr_to_int, equal, if_tree, ralloc in H. cbn [snd] in H.
  set (b := {| index := s;
               test := ir_expression2 (Scalar GLSL_TYPE_BOOL) ir_binop_equal
                         (ir_expression1 (Scalar GLSL_TYPE_INT)
                            ir_unop_subroutine_to_int r)
                         (ir_constant (Scalar GLSL_TYPE_INT) (Z.of_nat s));
               call := c |}).
  assert (Hb : rung_built ir_call_new state ir sv b).
  { split.
    - exists r. split; [exact Hr | reflexivity].
    - exists fn, m2, (cur_return_deref st), m3. split; [exact Efn | exact Hc]. }
  destruct (0 <? s).
  - destruct (cur_return_deref st) as [d|]; [|discriminate].
    unfold clone_dereference_variable, new_ir_dereference_variable, ralloc in H.
    injection H as <-. cbn [last_branch]. exists b.
    split; [reflexivity|]. split; [exact Hb|]. intros bs ->. reflexivity.
  - injection H as <-. cbn [last_branch]. exists b.
    split; [reflexivity|]. split; [exact Hb|]. intros bs ->. reflexivity.
Qed.

Lemma ladder_loop_with_Done ir_call_new state ir sv : forall n st st' bs,
  last_branch st = nest bs ->
  ladder_loop_with ir_call_new state ir sv n st = Done st' ->
  exists new,
    last_branch st' = nest (new ++ bs)
    /\ map index new = eligible state sv n
    /\ Forall (rung_built ir_call_new state ir sv) new.
Proof.
  induction n as [|n IH]; intros st st' bs Hl H.
  - cbn in H. injection H as <-. exists []. repeat split; [exact Hl | constructor].
  - cbn [ladder_loop_with] in H. apply bind_Done in H as (st1 & H1 & H2).
    apply ladder_iteration_with_Done in H1. rewrite eligible_S.
    destruct (eligible_at state sv n).
    + destruct H1 as (b & Hi & Hb & Hn). specialize (Hn bs Hl).
      destruct (IH st1 st' (b :: bs) Hn H2) as (new & L & I & R).
      exists (new ++ [b]). rewrite <- app_assoc. cbn [app].
      split; [exact L|]. split.
      * rewrite map_app, I. cbn [map]. now rewrite Hi.
      * apply Forall_app. split; [exact R | constructor; [exact Hb | constructor]].
    + rewrite <- H1 in Hl.
      destruct (IH st1 st' bs Hl H2) as (new & L & I & R).
      exists new. rewrite app_nil_r. repeat split; assumption.
Qed.

Lemma visit_leave_with_Done ir_call_new v m prev ir sv v' m' prev' :
  sub_var ir = Some sv ->
  visit_leave_with ir_call_new v m prev ir = Done (v', m', prev') ->
  exists bs,
    prev' = prev ++ splice (nest bs)
    /\ map index bs = eligible (state v) sv (num_subroutines (state v))
    /\ Forall (rung_built ir_call_new (state v) ir sv) bs.
Proof.
  intros Hsv H. unfold visit_leave_with in H. rewrite Hsv in H.
  apply bind_Done in H as (st & Hst & H). injection H as _ _ <-.
  destruct (ladder_loop_with_Done ir_call_new (state v) ir sv
              (num_subroutines (state v))
              {| mem := m; last_branch := None;
                 cur_return_deref := return_deref ir |} st []
              eq_refl Hst) as (bs & L & I & R).
  rewrite app_nil_r in L. exists bs. split; [|split; assumption].
  rewrite L. destruct (nest bs); [reflexivity | now rewrite app_nil_r].
Qed.

(** With the constructor that stores what it is given, the loop is the
    loop of [visit_leave]. *)
Lemma ladder_iteration_with_stored state ir sv s st :
  ladder_iteration_with ir_call_stored state ir sv s st
  = ladder_iteration state ir sv s st.
Proof.
  unfold ladder_iteration_with, ladder_iteration, ir_call_stored, new_ir_call.
  cbn [bind]. reflexivity.
Qed.

Lemma ladder_loop_with_stored state ir sv : forall n st,
  ladder_loop_with ir_call_stored state ir sv n st
  = ladder_loop state ir sv n st.
Proof.
  induction n as [|n IH]; intros st; [reflexivity|].
  cbn [ladder_loop_with ladder_loop]. rewrite ladder_iteration_with_stored.
  destruct (ladder_iteration state ir sv n st); cbn [bind];
    [apply IH | reflexivity | reflexivity | reflexivity].
Qed.

Lemma visit_leave_with_stored v m prev ir :
  visit_leave_with ir_call_stored v m prev ir = visit_leave v m prev ir.
Proof.
  unfold visit_leave_with, visit_leave.
  destruct (sub_var ir); [|reflexivity].
  now rewrite ladder_loop_with_stored.
Qed.

(** C8, as the code has it.  The loop does not look at what the lookup of
    the exact overload returns: an eligible candidate whose lookup finds
    no signature is not skipped, the null signature is handed to the
    constructor of [ir_call] like any other.  Whatever that constructor
    does, if the pass returns, the ladder has the rung of the candidate,
    testing the bound value for its index, around the call that the
    constructor returned for the null signature.  So a pass that returns
    has not dropped the candidate, and when the constructor does not
    return for a null signature the pass does not return either. *)
Theorem visit_leave_unmatched_candidate
    (ir_call_new : mem_ctx -> option ir_function_signature ->
                   option ir_dereference_variable -> list ir_rvalue ->
                   outcome (ir_call * mem_ctx))
    (v : lower_subroutine_visitor) (m : mem_ctx) (prev : list ir_instruction)
    (ir : ir_call) (sv : ir_variable) (s : nat) (fn : ir_function)
    (v' : lower_subroutine_visitor) (m' : mem_ctx)
    (prev' : list ir_instruction) :
  sub_var ir = Some sv ->
  nth_error (subroutines (state v)) s = Some fn ->
  is_compat sv fn = true ->
  exact_matching_signature fn (actual_parameters ir) = None ->
  visit_leave_with ir_call_new v m prev ir = Done (v', m', prev') ->
  exists bs b mem0 dest mem1,
    prev' = prev ++ splice (nest bs)
    /\ map index bs = eligible (state v) sv (num_subroutines (state v))
    /\ In b bs /\ index b = s
    /\ index_test ir sv s (test b)
    /\ ir_call_new mem0 None dest (actual_parameters ir) = Done (call b, mem1).
Proof.
  intros Hsv Hfn Hc Hx H.
  destruct (visit_leave_with_Done _ _ _ _ _ _ _ _ _ Hsv H) as (bs & Hp & I & R).
  assert (Hin : In s (map index bs)).
  { rewrite I. apply eligible_In. split.
    - apply nth_error_Some. unfold num_subroutines. congruence.
    - unfold eligible_at. now rewrite Hfn. }
  apply in_map_iff in Hin as (b & Hb & Hin).
  rewrite Forall_forall in R.
  destruct (R b Hin) as [Ht (fn' & mem0 & dest & mem1 & E & Hcal)].
  rewrite Hb in *. assert (fn' = fn) as -> by congruence.
  rewrite Hx in Hcal.
  exists bs, b, mem0, dest, mem1. repeat split; assumption.
Qed.

Lemma visit_leave_unmatched_candidate_witness :
  exists v' m' prev',
    visit_leave_with ir_call_stored (sample_visitor mismatch_state) 10 []
      sample_call = Done (v', m', prev')
    /\ exists bs b mem0 dest mem1,
      prev' = [] ++ splice (nest bs)
      /\ map index bs = [0]
      /\ In b bs /\ index b = 0
      /\ index_test sample_call selector 0 (test b)
      /\ ir_call_stored mem0 None dest (actual_parameters sample_call)
         = Done (call b, mem1).
Proof.
  do 3 eexists. split; [reflexivity|].
  exact (visit_leave_unmatched_candidate ir_call_stored
           (sample_visitor mismatch_state) 10 [] sample_call selector 0
           {| name := "g0"; signatures := [sig "g0" [float; float]];
              subroutine_types := [T] |}
           _ _ _ eq_refl eq_refl eq_refl eq_refl eq_refl).
Defined.

(** C8, as stated, fails: the one candidate of the registry is eligible
    and its lookup finds no signature for the one float argument.  Were
    the candidate dropped without an error, the pass would return and
    put nothing in the place of the call.  It does not, whatever the
    constructor of [ir_call] does with the null signature it is handed:
    either the constructor returns a call, and the ladder has a rung
    around it, or it does not return, and neither does the pass. *)
Lemma visit_leave_unmatched_contributes :
  exists fn,
    nth_error (subroutines mismatch_state) 0 = Some fn
    /\ is_compat selector fn = true
    /\ exact_matching_signature fn (actual_parameters sample_call) = None
    /\ forall ir_call_new v' m',
        visit_leave_with ir_call_new (sample_visitor mismatch_state) 10 []
          sample_call
        <> Done (v', m', []).
Proof.
  eexists. split; [reflexivity|]. split; [reflexivity|].
  split; [reflexivity|].
  intros ir_call_new v' m' H.
  unfold visit_leave_with in H. cbn [sub_var sample_call] in H.
  apply bind_Done in H as (st & Hst & H). injection H as _ _ H.
  change (num_subroutines (state (sample_visitor mismatch_state))) with 1 in Hst.
  cbn [ladder_loop_with] in Hst.
  apply bind_Done in Hst as (st1 & H1 & H2). injection H2 as <-.
  apply ladder_iteration_with_Done in H1.
  change (eligible_at (state (sample_visitor mismatch_state)) selector 0)
    with true in H1.
  destruct H1 as (b & _ & _ & Hn). specialize (Hn [] eq_refl).
  rewrite Hn in H. cbn [nest] in H. discriminate H.
Qed.

(** *** Calls without a return destination *)


(** An indirect call for which no candidate is eligible goes away and
    nothing takes its place. *)
Lemma visit_leave_no_candidate v m prev ir sv :
  sub_var ir = Some sv ->
  eligible (state v) sv (num_subroutines (state v)) = [] ->
  exists m', visit_leave v m prev ir = Done (v, m', prev).
Proof.
  intros Hsv He.
  assert (T : exists r, visit_leave v m prev ir = Done r).
  { unfold visit_leave. rewrite Hsv.
    destruct (ladder_loop_total (state v) ir sv (num_subroutines (state v))
                {| mem := m; last_branch := None;
                   cur_return_deref := return_deref ir |})
      as [st Hst]; [lia | right; rewrite He; contradiction |].
    rewrite Hst. cbn [bind]. eauto. }
  destruct T as [[[v' m'] prev'] H].
  destruct (visit_leave_Done _ _ _ _ _ _ _ _ Hsv H)
    as (bs & clones & -> & _ & -> & I & _).
  rewrite He in I. apply map_eq_nil in I. subst bs.
  exists m'. rewrite H. cbn. now rewrite app_nil_r.
Qed.

(** C9, where the code departs from it.  The call [selector(arg)] of a
    subroutine that returns nothing, with the candidates at indices 1,
    3 and 4 eligible: once the rung for index 4 is built the loop clones
    the return destination, which is null.  No ladder is inserted and
    the call is not removed. *)
Theorem visit_leave_void_call :
  visit_leave (sample_visitor sample_state) 10 [assign_result] void_call
  = NullDeref
  /\ lower_subroutine 10
       [ir_type_function "main" [assign_result; ir_type_call void_call]]
       sample_state
     = NullDeref.
Proof. split; reflexivity. Qed.

(** C5, where the code departs from it.  The pass removes the indirect
    call of the first program and replaces that of the second by a
    ladder, and returns false both times: nothing ever sets the
    progress flag of the visitor. *)
Theorem lower_subroutine_progress_flag :
  lower_subroutine 10
    [ir_type_function "main"
       [assign_result; ir_type_call orphan_call; assign_result]]
    sample_state
  = Done ([ir_type_function "main" [assign_result; assign_result]], false)
  /\ exists ladder,
      lower_subroutine 10
        [ir_type_function "main" [ir_type_call sample_call]] sample_state
      = Done ([ir_type_function "main" [ladder]], false)
      /\ ladder <> ir_type_call sample_call.
Proof.
  split; [reflexivity|].
  eexists. split; [reflexivity | discriminate].
Qed.

(** *** Metadata *)






(* ================================================================== *)
(** ** Further properties of subroutine lowering *)

Lemma has_indirect_any l :
  (fix any (l : list ir_instruction) : bool :=
     match l with
     | [] => false
     | i :: l' => has_indirect i || any l'
     end) l = any_indirect l.
Proof. induction l as [|i l IH]; [reflexivity|]. simpl. now rewrite IH. Qed.

Lemma has_indirect_if c th el :
  has_indirect (ir_type_if c th el) = any_indirect th || any_indirect el.
Proof. cbn [has_indirect]. now rewrite !has_indirect_any. Qed.

Lemma has_indirect_loop b : has_indirect (ir_type_loop b) = any_indirect b.
Proof. cbn [has_indirect]. now rewrite has_indirect_any. Qed.

Lemma has_indirect_function f b :
  has_indirect (ir_type_function f b) = any_indirect b.
Proof. cbn [has_indirect]. now rewrite has_indirect_any. Qed.

Lemma any_indirect_app l l' :
  any_indirect (l ++ l') = any_indirect l || any_indirect l'.
Proof. apply existsb_app. Qed.

Lemma visit_list_elements_untouched l :
  Forall untouched l -> any_indirect l = false ->
  forall v m prev, visit_list_elements v m prev l = Done (v, m, prev ++ l).
Proof.
  induction 1 as [|i l Hi _ IH]; intros Hl v m prev.
  - cbn. now rewrite app_nil_r.
  - cbn in Hl. apply orb_false_iff in Hl as [H1 H2].
    cbn [visit_list_elements]. rewrite (Hi H1). cbn [bind].
    rewrite (IH H2), <- app_assoc. reflexivity.
Qed.

Lemma visit_untouched i : untouched i.
Proof.
  induction i using ir_instruction_nested_ind; intros Hi v m prev.
  - cbn in Hi. cbn [visit]. unfold visit_leave.
    destruct (sub_var c); [discriminate | reflexivity].
  - rewrite has_indirect_if in Hi. apply orb_false_iff in Hi as [H1 H2].
    rewrite visit_if.
    rewrite (visit_list_elements_untouched th H H1). cbn [bind].
    rewrite (visit_list_elements_untouched el H0 H2). reflexivity.
  - reflexivity.
  - rewrite has_indirect_loop in Hi. rewrite visit_loop.
    rewrite (visit_list_elements_untouched b H Hi). reflexivity.
  - rewrite has_indirect_function in Hi. rewrite visit_function.
    rewrite (visit_list_elements_untouched b H Hi). reflexivity.
Qed.

(** X1.  A program without a call through a subroutine variable goes
    through the pass unchanged: the same instructions come back,
    direct calls included, and the pass reports no progress. *)
Theorem lower_subroutine_direct_only (m : mem_ctx)
    (instructions : list ir_instruction) (state : _mesa_glsl_parse_state) :
  any_indirect instructions = false ->
  lower_subroutine m instructions state = Done (instructions, false).
Proof.
  intros H. unfold lower_subroutine.
  rewrite visit_list_elements_untouched; [reflexivity | | exact H].
  apply Forall_forall. intros i _. apply visit_untouched.
Qed.

Lemma lower_subroutine_direct_only_witness :
  lower_subroutine 10 direct_program sample_state
  = Done (direct_program, false).
Proof.
  apply (lower_subroutine_direct_only 10 direct_program sample_state).
  reflexivity.
Defined.

Lemma nest_direct state ir sv bs :
  Forall (rung_ok state ir sv) bs -> any_indirect (splice (nest bs)) = false.
Proof.
  induction 1 as [|b bs [_ (fn & _ & _ & _ & Hsv & _)] _ IH]; [reflexivity|].
  cbn [nest splice any_indirect existsb]. rewrite has_indirect_if.
  cbn [any_indirect existsb has_indirect]. rewrite Hsv.
  unfold any_indirect, splice in IH. destruct (nest bs); cbn in *.
  - now rewrite IH.
  - reflexivity.
Qed.

Lemma visit_leave_lowered v m prev ir v' m' prev' :
  visit_leave v m prev ir = Done (v', m', prev') ->
  any_indirect prev = false -> any_indirect prev' = false.
Proof.
  intros H Hp. destruct (sub_var ir) as [sv|] eqn:Hsv.
  - destruct (visit_leave_Done _ _ _ _ _ _ _ _ Hsv H)
      as (bs & clones & _ & _ & -> & _ & R & _).
    rewrite any_indirect_app, Hp. cbn [orb]. eapply nest_direct. exact R.
  - unfold visit_leave in H. rewrite Hsv in H. injection H as <- <- <-.
    rewrite any_indirect_app, Hp. cbn. now rewrite Hsv.
Qed.

Lemma visit_list_elements_lowered l :
  Forall lowered l ->
  forall v m prev v' m' prev',
    visit_list_elements v m prev l = Done (v', m', prev') ->
    any_indirect prev = false -> any_indirect prev' = false.
Proof.
  induction 1 as [|i l Hi _ IH]; intros v m prev v' m' prev' H Hp.
  - injection H as <- <- <-. exact Hp.
  - cbn [visit_list_elements] in H.
    apply bind_Done in H as ([[v1 m1] p1] & H1 & H).
    eapply IH; [exact H|]. eapply Hi; eassumption.
Qed.

Lemma visit_lowered i : lowered i.
Proof.
  induction i using ir_instruction_nested_ind;
    intros v m prev v' m' prev' Hv Hp.
  - eapply visit_leave_lowered; eassumption.
  - rewrite visit_if in Hv.
    apply bind_Done in Hv as ([[v1 m1] th'] & H1 & Hv).
    apply bind_Done in Hv as ([[v2 m2] el'] & H2 & Hv).
    injection Hv as <- <- <-.
    rewrite any_indirect_app, Hp. cbn [orb any_indirect existsb].
    rewrite has_indirect_if.
    rewrite (visit_list_elements_lowered th H _ _ _ _ _ _ H1 eq_refl).
    now rewrite (visit_list_elements_lowered el H0 _ _ _ _ _ _ H2 eq_refl).
  - injection Hv as <- <- <-. rewrite any_indirect_app, Hp. reflexivity.
  - rewrite visit_loop in Hv.
    apply bind_Done in Hv as ([[v1 m1] b'] & H1 & Hv).
    injection Hv as <- <- <-.
    rewrite any_indirect_app, Hp. cbn [orb any_indirect existsb].
    rewrite has_indirect_loop.
    now rewrite (visit_list_elements_lowered b H _ _ _ _ _ _ H1 eq_refl).
  - rewrite visit_function in Hv.
    apply bind_Done in Hv as ([[v1 m1] b'] & H1 & Hv).
    injection Hv as <- <- <-.
    rewrite any_indirect_app, Hp. cbn [orb any_indirect existsb].
    rewrite has_indirect_function.
    now rewrite (visit_list_elements_lowered b H _ _ _ _ _ _ H1 eq_refl).
Qed.

(** X2.  When the pass returns, no call through a subroutine
    variable is left anywhere in the program, however deeply it was
    nested; a second run therefore gives the program back as it is. *)
Theorem lower_subroutine_lowers_all (m : mem_ctx)
    (instructions instructions' : list ir_instruction)
    (state : _mesa_glsl_parse_state) (p : bool) :
  lower_subroutine m instructions state = Done (instructions', p) ->
  any_indirect instructions' = false
  /\ forall m2 state2,
      lower_subroutine m2 instructions' state2 = Done (instructions', false).
Proof.
  unfold lower_subroutine at 1. intros H.
  apply bind_Done in H as ([[v' m'] l'] & H1 & H). injection H as <- <-.
  assert (N : any_indirect l' = false).
  { eapply visit_list_elements_lowered; [|exact H1|reflexivity].
    apply Forall_forall. intros i _. apply visit_lowered. }
  split; [exact N|]. intros m2 state2. unfold lower_subroutine.
  rewrite visit_list_elements_untouched; [reflexivity | | exact N].
  apply Forall_forall. intros i _. apply visit_untouched.
Qed.

Lemma lower_subroutine_lowers_all_witness :
  exists instructions',
    lower_subroutine 10 nested_program sample_state
    = Done (instructions', false)
    /\ any_indirect nested_program = true
    /\ any_indirect instructions' = false
    /\ forall m2 state2,
        lower_subroutine m2 instructions' state2 = Done (instructions', false).
Proof.
  eexists. split; [vm_compute; reflexivity|]. split; [reflexivity|].
  apply (lower_subroutine_lowers_all 10 nested_program _ sample_state false).
  vm_compute. reflexivity.
Defined.







(* ================================================================== *)
(** ** Further properties of copy splitting *)

Lemma split_var_copies_block_outcome todo : forall done progress,
  (exists r, split_var_copies_block done todo progress = Done r)
  \/ split_var_copies_block done todo progress = AssertFailed.
Proof.
  induction todo as [|i todo IH]; intros done p.
  - left. cbn. eauto.
  - destruct i as [| |[d s| | |]|]; cbn [split_var_copies_block];
      try apply IH.
    destruct (glsl_type_eqb (type d) (type s)) eqn:E.
    + apply glsl_type_eqb_eq in E.
      rewrite split_deref_copy_instr_emission by exact E.
      cbn [bind]. apply IH.
    + right. rewrite split_deref_copy_instr_mismatch; [reflexivity|].
      intros C. apply glsl_type_eqb_eq in C. congruence.
Qed.

Lemma split_var_copies_blocks_outcome blocks : forall progress,
  (exists r, split_var_copies_blocks blocks progress = Done r)
  \/ split_var_copies_blocks blocks progress = AssertFailed.
Proof.
  induction blocks as [|bl blocks IH]; intros p.
  - left. cbn. eauto.
  - cbn [split_var_copies_blocks].
    destruct (split_var_copies_block_outcome bl [] p) as [[[bl' p1] H]|H];
      rewrite H; cbn [bind]; [|now right].
    destruct (IH p1) as [[[rest' p2] H']|H']; rewrite H'; cbn [bind];
      [left; eauto | now right].
Qed.

(** X5.  In a build with assertions (NDEBUG not defined), a body goes
    through the pass exactly when each of its copies is between two
    chains of one type; a body with a copy between chains of different
    types stops the pass at the entry assertion of the split. *)
Theorem split_var_copies_returns_iff (i : nir_function_impl) :
  ((exists r, split_var_copies_impl false i = Done r) <-> impl_typed i)
  /\ (~ impl_typed i -> split_var_copies_impl false i = AssertFailed).
Proof.
  assert (Iff : (exists r, split_var_copies_impl false i = Done r)
                <-> impl_typed i).
  { split.
    - intros [r H]. eapply split_var_copies_impl_typed. exact H.
    - intros T. rewrite split_var_copies_impl_spec by exact T. eauto. }
  split; [exact Iff|].
  intros N. unfold split_var_copies_impl.
  destruct (split_var_copies_blocks_outcome (body i) false) as [[[bs p] H]|H].
  - exfalso. apply N. apply Iff. unfold split_var_copies_impl.
    rewrite H. cbn [bind]. eauto.
  - rewrite H. reflexivity.
Qed.

(** X6.  The pass rewrites each block in place: the body keeps its
    blocks, in number and order; in each block every instruction that is
    no copy stays where it was and every copy is replaced, where it
    stood, by what its split emits; a block without copies comes back as
    it was. *)
Theorem split_var_copies_in_place (NDEBUG : bool) (i i' : nir_function_impl)
    (p : bool) :
  split_var_copies_impl NDEBUG i = Done (i', p) ->
  body i' = map (flat_map expand) (body i)
  /\ List.length (body i') = List.length (body i)
  /\ forall k bl,
      nth_error (body i) k = Some bl -> has_copy bl = false ->
      nth_error (body i') k = Some bl.
Proof.
  intros H. pose proof (split_var_copies_impl_typed _ _ _ H) as T.
  rewrite split_var_copies_impl_spec in H by exact T. injection H as <- <-.
  cbn [impl_after body]. split; [reflexivity|]. split; [apply length_map|].
  intros k bl Hk Hc. rewrite nth_error_map.
  unfold nir_block in *. rewrite Hk. cbn.
  now rewrite expand_no_copy.
Qed.

Lemma split_var_copies_in_place_witness :
  exists i',
    split_var_copies_impl false struct_copy_impl = Done (i', true)
    /\ body i' = map (flat_map expand) (body struct_copy_impl)
    /\ List.length (body i') = 1.
Proof.
  eexists. split; [reflexivity|].
  destruct (split_var_copies_in_place false struct_copy_impl _ true eq_refl)
    as (B & L & _).
  split; [exact B | exact L].
Defined.

Lemma map_expand_no_copy blocks :
  existsb has_copy blocks = false -> map (flat_map expand) blocks = blocks.
Proof.
  induction blocks as [|bl blocks IH]; [reflexivity|].
  cbn. intros H. apply orb_false_iff in H as [H1 H2].
  now rewrite expand_no_copy, IH.
Qed.

(** X7.  The pass over a body reports progress exactly when the body
    holds a copy, whatever the copy is between; when it reports none the
    instructions of the body are untouched. *)
Theorem split_var_copies_progress (NDEBUG : bool) (i i' : nir_function_impl)
    (p : bool) :
  split_var_copies_impl NDEBUG i = Done (i', p) ->
  p = has_copy (impl_instrs i)
  /\ (p = false -> body i' = body i).
Proof.
  intros H. pose proof (split_var_copies_impl_typed _ _ _ H) as T.
  rewrite split_var_copies_impl_spec in H by exact T. injection H as <- <-.
  split.
  - unfold impl_has_copy, impl_instrs.
    induction (body i) as [|l ls IHl]; [reflexivity|].
    cbn. now rewrite has_copy_app, IHl.
  - intros Hp. cbn [impl_after body]. now apply map_expand_no_copy.
Qed.

Lemma split_var_copies_progress_witness :
  exists i',
    split_var_copies_impl false no_copy_impl = Done (i', false)
    /\ false = has_copy (impl_instrs no_copy_impl)
    /\ (false = false -> body i' = body no_copy_impl).
Proof.
  eexists. split; [reflexivity|].
  exact (split_var_copies_progress false no_copy_impl _ false eq_refl).
Defined.

(** X8.  The pass never validates an analysis: every flag that is set
    after the run was set before it. *)
Theorem split_var_copies_flags_shrink (NDEBUG : bool)
    (i i' : nir_function_impl) (p : bool) (n : Z) :
  split_var_copies_impl NDEBUG i = Done (i', p) ->
  Z.testbit (valid_metadata i') n = true ->
  Z.testbit (valid_metadata i) n = true.
Proof.
  intros H. pose proof (split_var_copies_impl_typed _ _ _ H) as T.
  rewrite split_var_copies_impl_spec in H by exact T. injection H as <- <-.
  cbn [impl_after valid_metadata].
  destruct (impl_has_copy i); [|destruct NDEBUG]; try tauto;
    rewrite Z.land_spec; intros B; now apply andb_true_iff in B.
Qed.

Lemma split_var_copies_flags_shrink_witness :
  exists i',
    split_var_copies_impl false struct_copy_impl = Done (i', true)
    /\ Z.testbit (valid_metadata i') 1 = true
    /\ Z.testbit (valid_metadata struct_copy_impl) 1 = true.
Proof.
  eexists. split; [reflexivity|]. split; [reflexivity|].
  exact (split_var_copies_flags_shrink false struct_copy_impl _ true 1
           eq_refl eq_refl).
Defined.

(** X9.  The pass over a shader keeps its functions, in number, order
    and name; a function without a body comes back as it was; a function
    with a body gets what the pass over that body alone gives, whatever
    the other functions are; and the progress reported is that of any of
    the bodies. *)
Theorem nir_split_var_copies_per_function (NDEBUG : bool) (sh sh' : nir_shader)
    (p : bool) :
  nir_split_var_copies NDEBUG sh = Done (sh', p) ->
  map Nir.name sh' = map Nir.name sh
  /\ (forall k f, nth_error sh k = Some f -> impl f = None ->
                  nth_error sh' k = Some f)
  /\ (forall k f i,
         nth_error sh k = Some f -> impl f = Some i ->
         exists i' q,
           split_var_copies_impl NDEBUG i = Done (i', q)
           /\ nth_error sh' k = Some {| Nir.name := Nir.name f; impl := Some i' |}
           /\ (q = true -> p = true))
  /\ (p = true ->
      exists f i i',
        In f sh /\ impl f = Some i
        /\ split_var_copies_impl NDEBUG i = Done (i', true)).
Proof.
  unfold nir_split_var_copies. intros H.
  pose proof (split_var_copies_functions_typed _ _ _ _ H) as T.
  rewrite split_var_copies_functions_spec in H by exact T.
  injection H as <- <-. rewrite orb_false_r.
  unfold shader_typed in T. rewrite Forall_forall in T.
  split; [|split; [|split]].
  - rewrite map_map. apply map_ext. intros f. unfold function_after.
    destruct (impl f); reflexivity.
  - intros k f Hk Hi. rewrite nth_error_map, Hk. cbn.
    unfold function_after. now rewrite Hi.
  - intros k f i Hk Hi.
    assert (Ti : impl_typed i).
    { specialize (T f (nth_error_In _ _ Hk)). unfold function_typed in T.
      now rewrite Hi in T. }
    exists (impl_after NDEBUG i), (impl_has_copy i).
    split; [now apply split_var_copies_impl_spec|]. split.
    + rewrite nth_error_map, Hk. cbn. unfold function_after. now rewrite Hi.
    + intros Hq. apply existsb_exists. exists f.
      split; [eapply nth_error_In; exact Hk|].
      unfold function_has_copy. now rewrite Hi.
  - intros Hp. apply existsb_exists in Hp as (f & Hf & Hc).
    unfold function_has_copy in Hc. destruct (impl f) as [i|] eqn:Hi;
      [|discriminate].
    exists f, i, (impl_after NDEBUG i). split; [exact Hf|]. split; [exact Hi|].
    rewrite split_var_copies_impl_spec, Hc; [reflexivity|].
    specialize (T f Hf). unfold function_typed in T. now rewrite Hi in T.
Qed.

Lemma nir_split_var_copies_per_function_witness :
  exists sh',
    nir_split_var_copies false struct_copy_shader = Done (sh', true)
    /\ map Nir.name sh' = map Nir.name struct_copy_shader.
Proof.
  eexists. split; [reflexivity|].
  exact (proj1 (nir_split_var_copies_per_function false struct_copy_shader
                  _ true eq_refl)).
Defined.

Lemma leaves_copied_app l l' :
  leaves_copied (l ++ l') = leaves_copied l + leaves_copied l'.
Proof.
  unfold leaves_copied. now rewrite copies_of_app, map_app, list_sum_app.
Qed.

Lemma copies_length_app l l' :
  List.length (copies_of (l ++ l'))
  = List.length (copies_of l) + List.length (copies_of l').
Proof. now rewrite copies_of_app, length_app. Qed.

(** X10.  The pass leaves as many copies in a body as the types copied
    before it have leaves, an array counting as its element: the number
    does not depend on the length of any array. *)
Theorem split_var_copies_count (NDEBUG : bool) (i i' : nir_function_impl)
    (p : bool) :
  split_var_copies_impl NDEBUG i = Done (i', p) ->
  List.length (copies_of (impl_instrs i')) = leaves_copied (impl_instrs i).
Proof.
  intros H. pose proof (split_var_copies_impl_typed _ _ _ H) as T.
  rewrite split_var_copies_impl_spec in H by exact T. injection H as <- <-.
  unfold impl_instrs. cbn [impl_after body]. clear T.
  induction (body i) as [|bl bls IH]; [reflexivity|].
  cbn [map List.concat]. rewrite copies_length_app, leaves_copied_app, IH.
  f_equal. clear IH.
  induction bl as [|ins bl IHbl]; [reflexivity|].
  cbn [flat_map]. rewrite copies_length_app, IHbl.
  change (ins :: bl) with ([ins] ++ bl). rewrite leaves_copied_app. f_equal.
  destruct ins as [| |[d s| | |]|]; try reflexivity.
  cbn [expand]. rewrite emission_copy_count. unfold leaves_copied. cbn. lia.
Qed.

Lemma split_var_copies_count_witness :
  exists i',
    split_var_copies_impl false struct_copy_impl = Done (i', true)
    /\ List.length (copies_of (impl_instrs i')) = 2.
Proof.
  eexists. split; [reflexivity|].
  exact (split_var_copies_count false struct_copy_impl _ true eq_refl).
Defined.

(* ================================================================== *)
(** ** Scheduling parameters of a thread attribute object *)

(** X11.  [pthread_attr_setschedparam] returns 0 exactly when the handle
    passes the validity test, the parameters are given and their
    priority lies within the range of the policy, bounds included.  It
    then stores the parameters in the attribute object and changes no
    other member.  In every other case it returns [EINVAL] and leaves
    the attribute object as it was. *)
Theorem pthread_attr_setschedparam_result
    (sched_param : Type) (sched_priority : sched_param -> Z)
    (attr_members : Type) (lo hi EINVAL : Z)
    (ptw32_is_attr : Sched.attr_pointer sched_param attr_members -> Z)
    (attr : Sched.attr_pointer sched_param attr_members)
    (param : option sched_param) :
  (forall a, ptw32_is_attr a = 0%Z -> exists o, a = Some (Some o)) ->
  EINVAL <> 0%Z ->
  exists attr' code,
    Sched.pthread_attr_setschedparam sched_param sched_priority attr_members
      lo hi EINVAL ptw32_is_attr attr param
    = Done (attr', code)
    /\ (code = 0%Z <->
        ptw32_is_attr attr = 0%Z
        /\ exists prm, param = Some prm
                       /\ (lo <= sched_priority prm <= hi)%Z)
    /\ (code <> 0%Z -> code = EINVAL /\ attr' = attr)
    /\ (code = 0%Z ->
        exists a prm,
          attr = Some (Some a) /\ param = Some prm
          /\ attr' = Some (Some {| Sched.param := prm;
                                   Sched.members := Sched.members sched_param attr_members a |})).
Proof.
  intros Hvalid HE. unfold Sched.pthread_attr_setschedparam.
  destruct param as [prm|].
  2:{ exists attr, EINVAL. split; [reflexivity|]. split; [|split].
      - split; [congruence|]. intros (_ & prm & C & _). discriminate.
      - auto.
      - congruence. }
  destruct (Z.eqb_spec (ptw32_is_attr attr) 0) as [Ha|Ha]; cbn [negb].
  2:{ exists attr, EINVAL. split; [reflexivity|]. split; [|split].
      - split; [congruence|]. intros (C & _). contradiction.
      - auto.
      - congruence. }
  destruct (Z.ltb_spec (sched_priority prm) lo) as [Hlo|Hlo]; cbn [orb].
  { exists attr, EINVAL. split; [reflexivity|]. split; [|split].
    - split; [congruence|]. intros (_ & q & E & R). injection E as <-. lia.
    - auto.
    - congruence. }
  destruct (Z.ltb_spec hi (sched_priority prm)) as [Hhi|Hhi].
  { exists attr, EINVAL. split; [reflexivity|]. split; [|split].
    - split; [congruence|]. intros (_ & q & E & R). injection E as <-. lia.
    - auto.
    - congruence. }
  destruct (Hvalid attr Ha) as [a ->].
  eexists _, 0%Z. split; [reflexivity|]. split; [|split].
  - split; [|reflexivity]. intros _. split; [exact Ha|].
    exists prm. split; [reflexivity | lia].
  - congruence.
  - intros _. exists a, prm. repeat split.
Qed.

Lemma pthread_attr_setschedparam_result_witness :
  exists attr' code,
    Sched.sample_set Sched.sample_attr (Some 15%Z) = Done (attr', code)
    /\ (code = 0%Z <->
        Sched.sample_is_attr Sched.sample_attr = 0%Z
        /\ exists prm, Some 15%Z = Some prm /\ (-15 <= prm <= 15)%Z)
    /\ (code <> 0%Z -> code = 22%Z /\ attr' = Sched.sample_attr)
    /\ (code = 0%Z ->
        exists a prm,
          Sched.sample_attr = Some (Some a) /\ Some 15%Z = Some prm
          /\ attr' = Some (Some {| Sched.param := prm;
                                   Sched.members := Sched.members Z nat a |})).
Proof.
  apply (pthread_attr_setschedparam_result Z (fun z => z) nat (-15) 15 22
           Sched.sample_is_attr Sched.sample_attr (Some 15%Z)).
  - intros [[o|]|] H; try discriminate. eauto.
  - discriminate.
Defined.

(* ================================================================== *)
(** ** Posting to a semaphore *)

Lemma int_Ret z r : Sem.int z = Sem.Ret r -> r = z.
Proof.
  unfold Sem.int. destruct (_ && _); [|discriminate]. now intros [= <-].
Qed.

Lemma int_in_range z :
  (Sem.INT_MIN <= z <= Sem.INT_MAX)%Z -> Sem.int z = Sem.Ret z.
Proof.
  intros [H1 H2]. unfold Sem.int.
  apply Z.leb_le in H1, H2. now rewrite H1, H2.
Qed.

Lemma run_bind_Ret {A B : Type} (m : Sem.run A) (k : A -> Sem.run B) (r : B) :
  Sem.run_bind m k = Sem.Ret r -> exists a, m = Sem.Ret a /\ k a = Sem.Ret r.
Proof. destruct m; cbn; try discriminate. eauto. Qed.

Ltac sem_steps H :=
  repeat match type of H with
         | Sem.run_bind (Sem.int ?z) _ = Sem.Ret _ =>
             let a := fresh "a" in
             let E := fresh "E" in
             apply run_bind_Ret in H as (a & E & H);
             apply int_Ret in E; subst a
         | Sem.finish _ _ _ = Sem.Ret _ =>
             unfold Sem.finish in H; injection H as <-;
             cbn [Sem.sem_after Sem.called Sem.errno Sem.returned
                  Sem.value Sem.leftToUnblock]
         end.

(** X12.  When [sem_post_multiple] returns 0 it has added [count] to the
    value of the semaphore and stored no error number.  When it returns
    -1 the value and the count of threads left to unblock are what they
    were, and the error number is [ERANGE], with no call made to the
    operating system, exactly when the value was above
    [SEM_VALUE_MAX - count], and [EINVAL] when the operating system
    refused the call.  It returns nothing else. *)
Theorem sem_post_multiple_result (SEM_VALUE_MAX EINVAL ERANGE : Z)
    (NEED_SEM : bool) (os_succeeds : Sem.os_call -> bool)
    (s : Sem.sem_t_) (count : Z) (r : Sem.posted) :
  EINVAL <> 0%Z -> ERANGE <> 0%Z ->
  Sem.sem_post_multiple SEM_VALUE_MAX EINVAL ERANGE NEED_SEM os_succeeds
    (Some (Some s)) count = Sem.Ret r ->
  (Sem.returned r = 0%Z /\ Sem.errno r = None
   /\ Sem.value (Sem.sem_after r) = (Sem.value s + count)%Z
   /\ (Sem.value s <= SEM_VALUE_MAX - count)%Z
   /\ forall c, Sem.called r = Some c -> os_succeeds c = true)
  \/ (Sem.returned r = (-1)%Z /\ Sem.sem_after r = s
      /\ ((Sem.errno r = Some ERANGE /\ Sem.called r = None
           /\ (SEM_VALUE_MAX - count < Sem.value s)%Z)
          \/ (Sem.errno r = Some EINVAL
              /\ (Sem.value s <= SEM_VALUE_MAX - count)%Z
              /\ exists c, Sem.called r = Some c /\ os_succeeds c = false))).
Proof.
  intros HE HR H. unfold Sem.sem_post_multiple in H.
  apply Z.eqb_neq in HE, HR.
  apply run_bind_Ret in H as (limit & E & H). apply int_Ret in E. subst limit.
  destruct (Z.leb_spec (Sem.value s) (SEM_VALUE_MAX - count)) as [Hle|Hgt].
  2:{ sem_steps H. rewrite HR. right. repeat split. left. repeat split. lia. }
  sem_steps H.
  destruct (0 <? - Sem.value s)%Z.
  2:{ sem_steps H. left. repeat split; try assumption. discriminate. }
  destruct NEED_SEM.
  - destruct (os_succeeds Sem.SetEvent) eqn:Hos.
    + sem_steps H. left. repeat split; try assumption.
      intros c [= <-]. exact Hos.
    + sem_steps H. rewrite HE. right. split; [reflexivity|]. split.
      * destruct s. cbn. f_equal. lia.
      * right. repeat split; try assumption. eauto.
  - match type of H with context [os_succeeds ?c] =>
      destruct (os_succeeds c) eqn:Hos end.
    + sem_steps H. left. repeat split; try assumption.
      intros c [= <-]. exact Hos.
    + sem_steps H. rewrite HE. right. split; [reflexivity|]. split.
      * destruct s. cbn. f_equal. lia.
      * right. repeat split; try assumption. eauto.
Qed.

Lemma sem_post_multiple_result_witness :
  exists r,
    Sem.sample_post false (Some (Some Sem.three_waiting)) 5 = Sem.Ret r
    /\ Sem.returned r = 0%Z
    /\ Sem.value (Sem.sem_after r) = 2%Z.
Proof.
  eexists. split; [reflexivity|].
  destruct (sem_post_multiple_result Sem.INT_MAX 22 34 false (fun _ => true)
              Sem.three_waiting 5 _ ltac:(discriminate) ltac:(discriminate)
              eq_refl)
    as [(R & _ & V & _)|(R & _)]; [|discriminate].
  split; [exact R | exact V].
Defined.

(** X13.  [sem_post_multiple] calls the operating system exactly when
    the value is negative, that is when threads wait, and the post is
    within range.  Without [NEED_SEM] it asks for the release of the
    lesser of the number of waiters and [count], which is at most
    [count] and, for a positive [count], at least 1; with [NEED_SEM] it
    sets the event. *)
Theorem sem_post_multiple_wakes (SEM_VALUE_MAX EINVAL ERANGE : Z)
    (NEED_SEM : bool) (os_succeeds : Sem.os_call -> bool)
    (s : Sem.sem_t_) (count : Z) (r : Sem.posted) :
  Sem.sem_post_multiple SEM_VALUE_MAX EINVAL ERANGE NEED_SEM os_succeeds
    (Some (Some s)) count = Sem.Ret r ->
  Sem.called r
  = (if ((Sem.value s <=? SEM_VALUE_MAX - count) && (Sem.value s <? 0))%Z
     then Some (if NEED_SEM then Sem.SetEvent
                else Sem.ReleaseSemaphore (Z.min (- Sem.value s) count))
     else None)
  /\ forall n, Sem.called r = Some (Sem.ReleaseSemaphore n) ->
               (n <= count /\ n <= - Sem.value s /\ (0 < count -> 0 < n))%Z.
Proof.
  intros H.
  assert (C : Sem.called r
              = (if ((Sem.value s <=? SEM_VALUE_MAX - count)
                     && (Sem.value s <? 0))%Z
                 then Some (if NEED_SEM then Sem.SetEvent
                            else Sem.ReleaseSemaphore
                                   (Z.min (- Sem.value s) count))
                 else None)).
  { unfold Sem.sem_post_multiple in H.
    apply run_bind_Ret in H as (limit & E & H). apply int_Ret in E. subst limit.
    destruct (Z.leb_spec (Sem.value s) (SEM_VALUE_MAX - count)) as [Hle|Hgt];
      cbn [andb]; [|now sem_steps H].
    sem_steps H.
    assert (W : (0 <? - Sem.value s)%Z = (Sem.value s <? 0)%Z).
    { destruct (Z.ltb_spec 0 (- Sem.value s)), (Z.ltb_spec (Sem.value s) 0);
        try reflexivity; lia. }
    rewrite <- W. destruct (0 <? - Sem.value s)%Z; [|now sem_steps H].
    assert (M : (if (- Sem.value s <=? count)%Z then (- Sem.value s)%Z else count)
                = Z.min (- Sem.value s) count).
    { destruct (Z.leb_spec (- Sem.value s) count); lia. }
    rewrite M in H.
    destruct NEED_SEM.
    - destruct (os_succeeds Sem.SetEvent); now sem_steps H.
    - destruct (os_succeeds _); now sem_steps H. }
  split; [exact C|]. intros n Hn. rewrite Hn in C.
  destruct (Z.leb_spec (Sem.value s) (SEM_VALUE_MAX - count));
    destruct (Z.ltb_spec (Sem.value s) 0); cbn in C; try discriminate.
  destruct NEED_SEM; [discriminate|]. injection C as ->. lia.
Qed.

Lemma sem_post_multiple_wakes_witness :
  exists r,
    Sem.sample_post false (Some (Some Sem.three_waiting)) 5 = Sem.Ret r
    /\ Sem.called r = Some (Sem.ReleaseSemaphore 3).
Proof.
  eexists. split; [reflexivity|].
  exact (proj1 (sem_post_multiple_wakes Sem.INT_MAX 22 34 false (fun _ => true)
                  Sem.three_waiting 5 _ eq_refl)).
Defined.

(** X14.  For a positive [count] and a limit, a value and a count of
    threads left to unblock that an [int] can hold with room for
    [count], no step of [sem_post_multiple] overflows: the function
    returns. *)
Theorem sem_post_multiple_defined (SEM_VALUE_MAX EINVAL ERANGE : Z)
    (NEED_SEM : bool) (os_succeeds : Sem.os_call -> bool)
    (s : Sem.sem_t_) (count : Z) :
  (0 <= SEM_VALUE_MAX <= Sem.INT_MAX)%Z ->
  (0 < count <= Sem.INT_MAX)%Z ->
  (Sem.INT_MIN < Sem.value s <= Sem.INT_MAX)%Z ->
  (0 <= Sem.leftToUnblock s /\ Sem.leftToUnblock s + count <= Sem.INT_MAX)%Z ->
  exists r,
    Sem.sem_post_multiple SEM_VALUE_MAX EINVAL ERANGE NEED_SEM os_succeeds
      (Some (Some s)) count = Sem.Ret r.
Proof.
  intros HM Hc Hv Hl. unfold Sem.sem_post_multiple.
  assert (Hmin : Sem.INT_MIN = (-2147483648)%Z) by reflexivity.
  assert (Hmax : Sem.INT_MAX = 2147483647%Z) by reflexivity.
  rewrite int_in_range by lia. cbn [Sem.run_bind].
  destruct (Z.leb_spec (Sem.value s) (SEM_VALUE_MAX - count)) as [Hle|Hgt];
    [|unfold Sem.finish; eauto].
  repeat (rewrite int_in_range by lia; cbn [Sem.run_bind]).
  destruct (Z.ltb_spec 0 (- Sem.value s)) as [Hw|Hw];
    [|unfold Sem.finish; eauto].
  destruct NEED_SEM;
    match goal with |- context [os_succeeds ?c] => destruct (os_succeeds c) end;
    repeat (rewrite int_in_range by lia; cbn [Sem.run_bind]);
    unfold Sem.finish; eauto.
Qed.

Lemma sem_post_multiple_defined_witness :
  exists r,
    Sem.sem_post_multiple Sem.INT_MAX 22 34 true (fun _ => true)
      (Some (Some Sem.three_waiting)) 5 = Sem.Ret r.
Proof.
  apply (sem_post_multiple_defined Sem.INT_MAX 22 34 true (fun _ => true)
           Sem.three_waiting 5); cbn; lia.
Defined.

(** X15.  Only a build with [NEED_SEM] touches the count of threads left
    to unblock, and only when threads wait and the event could be set:
    the count then grows by [count - 1], capped at the number of
    waiters less the one the event wakes. *)
Theorem sem_post_multiple_leftToUnblock (SEM_VALUE_MAX EINVAL ERANGE : Z)
    (NEED_SEM : bool) (os_succeeds : Sem.os_call -> bool)
    (s : Sem.sem_t_) (count : Z) (r : Sem.posted) :
  Sem.sem_post_multiple SEM_VALUE_MAX EINVAL ERANGE NEED_SEM os_succeeds
    (Some (Some s)) count = Sem.Ret r ->
  Sem.leftToUnblock (Sem.sem_after r)
  = if NEED_SEM && os_succeeds Sem.SetEvent
       && ((Sem.value s <=? SEM_VALUE_MAX - count) && (Sem.value s <? 0))%Z
    then Z.min (Sem.leftToUnblock s + (count - 1)) (- Sem.value s - 1)
    else Sem.leftToUnblock s.
Proof.
  intros H. unfold Sem.sem_post_multiple in H.
  apply run_bind_Ret in H as (limit & E & H). apply int_Ret in E. subst limit.
  destruct (Z.leb_spec (Sem.value s) (SEM_VALUE_MAX - count)) as [Hle|Hgt];
    cbn [andb].
  2:{ sem_steps H. now rewrite andb_false_r. }
  sem_steps H.
  assert (W : (0 <? - Sem.value s)%Z = (Sem.value s <? 0)%Z).
  { destruct (Z.ltb_spec 0 (- Sem.value s)), (Z.ltb_spec (Sem.value s) 0);
      try reflexivity; lia. }
  rewrite <- W. destruct (0 <? - Sem.value s)%Z.
  2:{ sem_steps H. now rewrite andb_false_r. }
  destruct NEED_SEM; cbn [andb].
  - destruct (os_succeeds Sem.SetEvent); sem_steps H; cbn [andb];
      [|reflexivity].
    destruct (Z.ltb_spec (- Sem.value s - 1)
                (Sem.leftToUnblock s + (count - 1))); lia.
  - destruct (os_succeeds _); now sem_steps H.
Qed.

Lemma sem_post_multiple_leftToUnblock_witness :
  exists r,
    Sem.sample_post true (Some (Some Sem.three_waiting)) 5 = Sem.Ret r
    /\ Sem.leftToUnblock (Sem.sem_after r) = 2%Z.
Proof.
  eexists. split; [reflexivity|].
  exact (sem_post_multiple_leftToUnblock Sem.INT_MAX 22 34 true (fun _ => true)
           Sem.three_waiting 5 _ eq_refl).
Defined.

(* ================================================================== *)
(** ** The thread reuse list *)

Section reuse_properties.

Variable PThreadState : Type.
Variable PThreadStateReuse : PThreadState.
Variable thread_members : Type.
Variable zeroed_members : thread_members.
Variable INCREMENT : option Z.

Local Abbreviation thread := (Reuse.ptw32_thread_t PThreadState thread_members).
Local Abbreviation chain := (Reuse.chain PThreadState thread_members).
Local Abbreviation store := (Reuse.store PThreadState thread_members).
Local Abbreviation holds := (Reuse.holds PThreadState thread_members).
Local Abbreviation set_prevReuse :=
  (Reuse.set_prevReuse PThreadState thread_members).
Local Abbreviation reusable :=
  (Reuse.reusable PThreadState PThreadStateReuse thread_members
     zeroed_members INCREMENT).
Local Abbreviation pop :=
  (Reuse.ptw32_threadReusePop PThreadState thread_members).
Local Abbreviation push :=
  (Reuse.ptw32_threadReusePush PThreadState PThreadStateReuse thread_members
     zeroed_members INCREMENT).
Local Abbreviation EMPTY := Reuse.PTW32_THREAD_REUSE_EMPTY.

Lemma pointer_eqb_empty q :
  Reuse.pointer_eqb EMPTY q = true <-> q = EMPTY.
Proof. destruct q; cbn; split; congruence. Qed.

Lemma store_same (h : nat -> option thread) a t : store h a t a = Some t.
Proof. unfold Reuse.store. now rewrite Nat.eqb_refl. Qed.

Lemma store_other (h : nat -> option thread) a t b :
  b <> a -> store h a t b = h b.
Proof.
  intros N. unfold Reuse.store. now destruct (Nat.eqb_spec b a).
Qed.

Lemma chain_empty (h : nat -> option thread) from l :
  chain h from l -> (from = EMPTY <-> l = []).
Proof.
  destruct l as [|a l]; cbn.
  - intros ->. tauto.
  - intros [-> _]. split; discriminate.
Qed.

Lemma chain_store_other (h : nat -> option thread) a t l : forall from,
  ~ In a l -> chain h from l -> chain (store h a t) from l.
Proof.
  induction l as [|c l IH]; intros from N C; [exact C|].
  cbn in *. destruct C as (-> & tc & Hc & C).
  split; [reflexivity|]. exists tc. split.
  - rewrite store_other by intuition congruence. exact Hc.
  - apply IH; tauto.
Qed.

Lemma last_default (l : list nat) : forall d c, last (d :: l) c = last l d.
Proof.
  induction l as [|e l IH]; intros d c; [reflexivity|].
  change (last (d :: e :: l) c) with (last (e :: l) c).
  change (last (e :: l) d) with (last (e :: l) d).
  now rewrite !IH.
Qed.

Lemma bottom_of_cons c d l :
  Reuse.bottom_of (c :: d :: l) = Reuse.bottom_of (d :: l).
Proof. unfold Reuse.bottom_of. now rewrite last_default. Qed.

Lemma bottom_of_In l b : Reuse.bottom_of l = Reuse.Addr b -> In b l.
Proof.
  destruct l as [|c l]; [discriminate|].
  revert c. induction l as [|d l IH]; intros c H.
  - injection H as <-. now left.
  - right. apply (IH d). now rewrite bottom_of_cons in H.
Qed.

Lemma bottom_of_snoc l a : Reuse.bottom_of (l ++ [a]) = Reuse.Addr a.
Proof.
  destruct l as [|c l]; [reflexivity|].
  revert c. induction l as [|d l IH]; intros c; [reflexivity|].
  change ((c :: d :: l) ++ [a]) with (c :: d :: (l ++ [a])).
  rewrite bottom_of_cons. apply (IH d).
Qed.

(** Linking a new last thread [a] behind the last thread [b]. *)
Lemma chain_snoc (h : nat -> option thread) a ta b tb : forall l from,
  chain h from l -> l <> [] -> Reuse.bottom_of l = Reuse.Addr b ->
  NoDup l -> ~ In a l -> h b = Some tb ->
  Reuse.prevReuse PThreadState thread_members ta = EMPTY ->
  chain (store (store h a ta) b (set_prevReuse tb (Reuse.Addr a))) from
        (l ++ [a]).
Proof.
  induction l as [|c l IH]; intros from C Hne Hb Nd Na Hhb Hta; [congruence|].
  cbn [Reuse.chain] in C. destruct C as (-> & tc & Hc & C).
  inversion Nd as [|? ? Nc Nd']; subst.
  assert (Hca : c <> a) by (intros ->; apply Na; now left).
  cbn [app Reuse.chain]. split; [reflexivity|].
  destruct l as [|d l].
  - cbn in Hb. injection Hb as <-.
    rewrite Hc in Hhb. injection Hhb as <-.
    exists (set_prevReuse tc (Reuse.Addr a)). split; [apply store_same|].
    cbn. split; [reflexivity|]. exists ta. split.
    + rewrite store_other by congruence. apply store_same.
    + exact Hta.
  - rewrite bottom_of_cons in Hb.
    assert (Hcb : c <> b).
    { intros ->. apply Nc. now apply bottom_of_In. }
    exists tc. split.
    + rewrite !store_other by congruence. exact Hc.
    + apply IH; try assumption; [discriminate|].
      intros Hin. apply Na. now right.
Qed.

(** X16.  On a well linked list [ptw32_threadReusePop] returns the handle
    of the thread that has been on the list longest, unlinks that thread
    and leaves the others on the list in their order; no other thread
    struct changes.  On the empty list it returns the null handle with
    counter 0 and changes nothing. *)
Theorem ptw32_threadReusePop_holds
    (st : Reuse.reuse_state PThreadState thread_members) (l : list nat) :
  holds st l ->
  match l with
  | [] => pop st = Done (st, {| Reuse.p := Reuse.NULL; Reuse.x := 0 |})
  | a :: l' =>
      exists tp st',
        Reuse.heap _ _ st a = Some tp
        /\ pop st = Done (st', Reuse.ptHandle _ _ tp)
        /\ holds st' l'
        /\ Reuse.heap _ _ st' a = Some (set_prevReuse tp Reuse.NULL)
        /\ forall b, b <> a -> Reuse.heap _ _ st' b = Reuse.heap _ _ st b
  end.
Proof.
  intros (C & B & Nd). unfold Reuse.ptw32_threadReusePop.
  destruct l as [|a l].
  - cbn in C. rewrite C. reflexivity.
  - cbn [Reuse.chain] in C. destruct C as (Ht & tp & Ha & C).
    rewrite Ht. cbn [Reuse.pointer_eqb negb Reuse.load]. rewrite Ha.
    cbn [bind]. inversion Nd as [|? ? Na Nd']; subst.
    eexists tp, _. split; [reflexivity|]. split; [reflexivity|].
    cbn [Reuse.heap]. split; [|split].
    + unfold Reuse.holds.
      cbn [Reuse.heap Reuse.ptw32_threadReuseTop Reuse.ptw32_threadReuseBottom].
      split; [now apply chain_store_other|]. split; [|exact Nd'].
      pose proof (chain_empty _ _ _ C) as E.
      destruct l as [|d l].
      * destruct E as [_ E]. rewrite (E eq_refl). reflexivity.
      * destruct (Reuse.prevReuse _ _ tp) eqn:P;
          try (rewrite B; apply bottom_of_cons).
        destruct E as [E _]. discriminate (E eq_refl).
    + apply store_same.
    + intros b Hb. now apply store_other.
Qed.

(** X17.  [ptw32_threadReusePush] of a handle to a thread that is not on
    a well linked list puts that thread last on the list.  The thread
    struct keeps the pointer of its handle, has its reuse counter bumped
    modulo 2^32, is in the reuse state and has every other member
    zeroed; the threads already on the list keep their handles, states
    and other members, and thread structs off the list are untouched.
    The counter of the handle passed in plays no part. *)
Theorem ptw32_threadReusePush_holds
    (st : Reuse.reuse_state PThreadState thread_members) (l : list nat)
    (handle : Reuse.pthread_t) (a : nat) (tp : thread) :
  holds st l ->
  Reuse.p handle = Reuse.Addr a ->
  Reuse.heap _ _ st a = Some tp ->
  ~ In a l ->
  exists st',
    push st handle = Done st'
    /\ holds st' (l ++ [a])
    /\ Reuse.heap _ _ st' a = Some (reusable (Reuse.ptHandle _ _ tp))
    /\ (forall b tb,
           b <> a -> Reuse.heap _ _ st b = Some tb ->
           exists tb',
             Reuse.heap _ _ st' b = Some tb'
             /\ Reuse.ptHandle _ _ tb' = Reuse.ptHandle _ _ tb
             /\ Reuse.state _ _ tb' = Reuse.state _ _ tb
             /\ Reuse.members _ _ tb' = Reuse.members _ _ tb
             /\ (Reuse.bottom_of l <> Reuse.Addr b -> tb' = tb))
    /\ (forall b, b <> a -> Reuse.heap _ _ st b = None ->
                  Reuse.heap _ _ st' b = None).
Proof.
  intros (C & B & Nd) Hp Ha Na. unfold Reuse.ptw32_threadReusePush.
  rewrite Hp. cbn [Reuse.load]. rewrite Ha. cbn [bind]. rewrite B.
  destruct l as [|c l].
  - cbn [Reuse.bottom_of Reuse.pointer_eqb negb]. cbn in C.
    eexists. split; [reflexivity|]. cbn [Reuse.heap].
    split; [|split; [|split]].
    + unfold Reuse.holds.
      cbn [Reuse.heap Reuse.ptw32_threadReuseTop Reuse.ptw32_threadReuseBottom
           app Reuse.chain Reuse.bottom_of last].
      split; [|split; [reflexivity | repeat constructor; auto]].
      split; [reflexivity|]. eexists. split; [apply store_same | reflexivity].
    + apply store_same.
    + intros b tb Hb Hh. exists tb. rewrite store_other by exact Hb. auto.
    + intros b Hb Hh. now rewrite store_other.
  - remember (c :: l) as cl eqn:Ecl.
    assert (Hne : cl <> []) by (subst cl; discriminate).
    destruct (Reuse.bottom_of cl) as [| |b] eqn:Eb;
      try (subst cl; discriminate).
    cbn [Reuse.pointer_eqb negb Reuse.load].
    assert (Hb_in : In b cl) by now apply bottom_of_In.
    assert (Hba : b <> a) by (intros ->; contradiction).
    assert (Hhb : exists tb, Reuse.heap _ _ st b = Some tb).
    { clear -C Hb_in. revert C. generalize (Reuse.ptw32_threadReuseTop _ _ st).
      induction cl as [|d cl IH]; intros from C; [contradiction|].
      cbn in C. destruct C as (_ & td & Hd & C).
      destruct Hb_in as [->|Hin]; [eauto | eapply IH; eassumption]. }
    destruct Hhb as [tb Hhb].
    rewrite store_other by exact Hba. rewrite Hhb. cbn [bind].
    eexists. split; [reflexivity|]. cbn [Reuse.heap].
    split; [|split; [|split]].
    + unfold Reuse.holds.
      cbn [Reuse.heap Reuse.ptw32_threadReuseTop Reuse.ptw32_threadReuseBottom].
      split; [|split].
      * apply chain_snoc; try assumption. reflexivity.
      * symmetry. apply bottom_of_snoc.
      * apply NoDup_app; [assumption | repeat constructor; auto |].
        intros e He [<-|[]]. contradiction.
    + rewrite store_other by congruence. apply store_same.
    + intros e te He Hh. destruct (Nat.eq_dec e b) as [->|Heb].
      * rewrite store_same. rewrite Hhb in Hh. injection Hh as <-.
        eexists. split; [reflexivity|]. cbn.
        repeat split. intros N. congruence.
      * exists te. rewrite !store_other by assumption. auto.
    + intros e He Hh. destruct (Nat.eq_dec e b) as [->|Heb]; [congruence|].
      now rewrite !store_other.
Qed.

(** X18.  Destroying and reusing a thread, from an empty list: after the
    push the handle the application still holds fails the staleness test
    of the header comment, its counter differing from the one in the
    thread struct; the pop that follows gives back the same thread
    struct under a handle with the bumped counter, different from the
    old handle, and leaves the list empty.  This needs the counter of
    the handle to be a 32 bit number and the increment not to be a
    multiple of 2^32. *)
Theorem reuse_push_pop_round_trip
    (st : Reuse.reuse_state PThreadState thread_members)
    (handle : Reuse.pthread_t) (a : nat) (tp : thread) :
  holds st [] ->
  Reuse.p handle = Reuse.Addr a ->
  Reuse.heap _ _ st a = Some tp ->
  Reuse.ptHandle _ _ tp = handle ->
  (0 <= Reuse.x handle < Reuse.reuse_counter_modulus)%Z ->
  ((match INCREMENT with Some inc => inc | None => 1 end)
     mod Reuse.reuse_counter_modulus <> 0)%Z ->
  exists st1 st2 fresh,
    push st handle = Done st1
    /\ Reuse.threadDestroyed _ _ (Reuse.heap _ _ st1) handle = Done true
    /\ pop st1 = Done (st2, fresh)
    /\ Reuse.p fresh = Reuse.p handle
    /\ Reuse.x fresh
       = ((Reuse.x handle + match INCREMENT with Some inc => inc | None => 1 end)
            mod Reuse.reuse_counter_modulus)%Z
    /\ fresh <> handle
    /\ holds st2 [].
Proof.
  intros (C & B & _) Hp Ha Hh Hx Hinc. cbn in C, B.
  set (inc := match INCREMENT with Some inc => inc | None => 1%Z end) in *.
  assert (Hne : ((Reuse.x handle + inc) mod Reuse.reuse_counter_modulus
                 <> Reuse.x handle)%Z).
  { intros E.
    pose proof (Z.div_mod (Reuse.x handle + inc) Reuse.reuse_counter_modulus
                  ltac:(discriminate)) as D.
    rewrite E in D. apply Hinc.
    replace inc
      with ((Reuse.x handle + inc) / Reuse.reuse_counter_modulus
            * Reuse.reuse_counter_modulus)%Z by lia.
    apply Z.mod_mul. discriminate. }
  unfold Reuse.ptw32_threadReusePush.
  rewrite Hp. cbn [Reuse.load]. rewrite Ha. cbn [bind]. rewrite B.
  cbn [Reuse.pointer_eqb negb].
  eexists _, _, _. split; [reflexivity|].
  split.
  { unfold Reuse.threadDestroyed. rewrite Hp.
    cbn [Reuse.heap Reuse.load]. rewrite store_same. cbn [bind].
    rewrite Hh. cbn [Reuse.reusable Reuse.ptHandle Reuse.x]. fold inc.
    f_equal. apply negb_true_iff, Z.eqb_neq. congruence. }
  unfold Reuse.ptw32_threadReusePop.
  cbn [Reuse.ptw32_threadReuseTop Reuse.pointer_eqb negb Reuse.heap Reuse.load].
  rewrite store_same. cbn [bind]. split; [reflexivity|].
  rewrite Hh. cbn [Reuse.reusable Reuse.ptHandle Reuse.p Reuse.x Reuse.prevReuse
                   Reuse.pointer_eqb].
  fold inc. split; [exact Hp || (symmetry; exact Hp) || reflexivity|].
  split; [reflexivity|]. split.
  - intros E. apply Hne. rewrite <- E at 2. reflexivity.
  - repeat split. constructor.
Qed.

End reuse_properties.

Lemma ptw32_threadReusePop_holds_witness :
  exists tp st',
    Reuse.heap nat nat Reuse.linked_state 1 = Some tp
    /\ Reuse.ptw32_threadReusePop nat nat Reuse.linked_state
       = Done (st', Reuse.ptHandle nat nat tp)
    /\ Reuse.holds nat nat st' [2]
    /\ Reuse.heap nat nat st' 1
       = Some (Reuse.set_prevReuse nat nat tp Reuse.NULL)
    /\ forall b, b <> 1 ->
                 Reuse.heap nat nat st' b = Reuse.heap nat nat Reuse.linked_state b.
Proof.
  apply (ptw32_threadReusePop_holds nat nat Reuse.linked_state [1; 2]).
  split; [|split].
  - split; [reflexivity|]. eexists. split; [reflexivity|].
    split; [reflexivity|]. eexists. split; reflexivity.
  - reflexivity.
  - repeat constructor; cbn; intuition discriminate.
Defined.

Lemma ptw32_threadReusePush_holds_witness :
  exists st',
    Reuse.ptw32_threadReusePush nat 4 nat 0 None Reuse.sample_state
      {| Reuse.p := Reuse.Addr 2; Reuse.x := 5 |} = Done st'
    /\ Reuse.holds nat nat st' [2]
    /\ Reuse.heap nat nat st' 2
       = Some {| Reuse.ptHandle := {| Reuse.p := Reuse.Addr 2; Reuse.x := 6 |};
                 Reuse.state := 4;
                 Reuse.prevReuse := Reuse.PTW32_THREAD_REUSE_EMPTY;
                 Reuse.members := 0 |}.
Proof.
  destruct (ptw32_threadReusePush_holds nat 4 nat 0 None Reuse.sample_state []
              {| Reuse.p := Reuse.Addr 2; Reuse.x := 5 |} 2
              (Reuse.sample_thread 2 5))
    as (st' & H1 & H2 & H3 & _).
  - repeat split. constructor.
  - reflexivity.
  - reflexivity.
  - intros [].
  - exists st'. split; [exact H1|]. split; [exact H2 | exact H3].
Defined.

Lemma reuse_push_pop_round_trip_witness :
  exists st1 st2 fresh,
    Reuse.ptw32_threadReusePush nat 4 nat 0 None Reuse.sample_state
      {| Reuse.p := Reuse.Addr 2; Reuse.x := 5 |} = Done st1
    /\ Reuse.threadDestroyed nat nat (Reuse.heap nat nat st1)
         {| Reuse.p := Reuse.Addr 2; Reuse.x := 5 |} = Done true
    /\ Reuse.ptw32_threadReusePop nat nat st1 = Done (st2, fresh)
    /\ Reuse.p fresh = Reuse.Addr 2
    /\ Reuse.x fresh = 6%Z
    /\ fresh <> {| Reuse.p := Reuse.Addr 2; Reuse.x := 5 |}
    /\ Reuse.holds nat nat st2 [].
Proof.
  apply (reuse_push_pop_round_trip nat 4 nat 0 None Reuse.sample_state
           {| Reuse.p := Reuse.Addr 2; Reuse.x := 5 |} 2
           (Reuse.sample_thread 2 5)).
  - repeat split. constructor.
  - reflexivity.
  - reflexivity.
  - reflexivity.
  - cbn. unfold Reuse.reuse_counter_modulus. lia.
  - discriminate.
Defined.
